(** * zod: parse status, result merging and issue construction

    A shallow embedding of [deno/lib/helpers/parseUtil.ts] and
    [deno/lib/errors.ts].

    Conventions of the embedding.
    - A mutable [ParseStatus] object is threaded explicitly: a method that
      mutates [this.value] returns the object after the call, and the static
      merge functions return the pair (status after the call, returned value).
    - An object [{ status, value }] is a record whose [value] field is
      optional: the frozen [INVALID] object has no [value] property, and
      reading it yields [undefined].
    - Function objects (error maps) are references; [===] on them is equality
      of references and their behaviour is looked up in an environment.
    - [await] is a constructor of a small free monad; running it records the
      order in which operands were awaited. *)

From Stdlib Require Import List String ZArith Bool Lia DecimalString.
Import ListNotations.
Set Warnings "-register-all".
Local Open Scope string_scope.
Local Open Scope list_scope.

(** ** JavaScript values *)

(** The values a parse result may carry: the primitives, arrays and object
    literals.  Numbers are the integers (fractions, NaN and the infinities are
    outside the model).  An object literal is the list of its own properties
    in creation order. *)
Inductive JsValue : Type :=
| JUndefined
| JNull
| JBool (b : bool)
| JNumber (n : Z)
| JString (s : string)
| JArray (elems : list JsValue)
| JObject (props : list (string * JsValue)).

(** [typeof v !== "undefined"] *)
Definition is_defined (v : JsValue) : bool :=
  match v with
  | JUndefined => false
  | _ => true
  end.

(** The values used as property keys, TypeScript's [PropertyKey] restricted to
    [string | number]. *)
Inductive PropertyKey : Type :=
| KString (s : string)
| KNumber (n : Z).

(** [k !== "__proto__"]: strict inequality with the string literal, so a
    number is never equal to it. *)
Definition not_proto_literal (k : option PropertyKey) : bool :=
  match k with
  | Some (KString s) => negb (String.eqb s "__proto__")
  | _ => true
  end.

(** ToPropertyKey: the property name under which [obj[k]] stores.  A missing
    key value reads as [undefined], whose name is ["undefined"]. *)
Definition ToPropertyKey (k : option PropertyKey) : string :=
  match k with
  | Some (KString s) => s
  | Some (KNumber n) => NilZero.string_of_int (Z.to_int n)
  | None => "undefined"
  end.

(** Own properties of an object literal. *)
Definition JsObject : Type := list (string * JsValue).

Fixpoint get_own (o : JsObject) (name : string) : option JsValue :=
  match o with
  | [] => None
  | (n, v) :: rest => if String.eqb n name then Some v else get_own rest name
  end.

(** [o[name] = v] on an ordinary object: an existing own property is
    overwritten in place, a new one is created last. *)
Fixpoint set_own (o : JsObject) (name : string) (v : JsValue) : JsObject :=
  match o with
  | [] => [(name, v)]
  | (n, w) :: rest =>
      if String.eqb n name then (n, v) :: rest
      else (n, w) :: set_own rest name v
  end.

(** ** Result algebra *)

Inductive StatusTag : Type := Valid | Dirty | Aborted.

Definition StatusTag_eqb (a b : StatusTag) : bool :=
  match a, b with
  | Valid, Valid | Dirty, Dirty | Aborted, Aborted => true
  | _, _ => false
  end.

(** Position in the order valid < dirty < aborted. *)
Definition rank (s : StatusTag) : nat :=
  match s with
  | Valid => 0
  | Dirty => 1
  | Aborted => 2
  end.

Definition status_le (a b : StatusTag) : Prop := rank a <= rank b.

(** [SyncParseReturnType<T> = OK<T> | DIRTY<T> | INVALID]. *)
Record SyncParseReturnType (T : Type) : Type := mkResult {
  status : StatusTag;
  value : option T
}.
Arguments mkResult {T} _ _.
Arguments status {T} _.
Arguments value {T} _.

Definition INVALID {T : Type} : SyncParseReturnType T :=
  {| status := Aborted; value := None |}.

Definition DIRTY {T : Type} (v : T) : SyncParseReturnType T :=
  {| status := Dirty; value := Some v |}.

Definition OK {T : Type} (v : T) : SyncParseReturnType T :=
  {| status := Valid; value := Some v |}.

(** Reading [s.value] where the property may be missing. *)
Definition read_value (s : SyncParseReturnType JsValue) : JsValue :=
  match value s with
  | Some v => v
  | None => JUndefined
  end.

(** Reading [s.value] of a key result. *)
Definition key_value (s : SyncParseReturnType PropertyKey) : option PropertyKey :=
  value s.

(** A promise is given by its identity and the way it settles. *)
Inductive Settlement (T : Type) : Type :=
| Fulfilled (r : SyncParseReturnType T)
| Rejected (reason : JsValue).
Arguments Fulfilled {T} _.
Arguments Rejected {T} _.

(** [ParseReturnType<T> = SyncParseReturnType<T> | Promise<SyncParseReturnType<T>>] *)
Inductive ParseReturnType (T : Type) : Type :=
| Sync (r : SyncParseReturnType T)
| Async (pid : nat) (s : Settlement T).
Arguments Sync {T} _.
Arguments Async {T} _ _.

(** [(x as any).status]: a promise has no such property. *)
Definition status_property {T : Type} (x : ParseReturnType T) : option StatusTag :=
  match x with
  | Sync r => Some (status r)
  | Async _ _ => None
  end.

Definition tag_is (t : StatusTag) (o : option StatusTag) : bool :=
  match o with
  | Some s => StatusTag_eqb s t
  | None => false
  end.

Definition isAborted {T : Type} (x : ParseReturnType T) : bool :=
  tag_is Aborted (status_property x).

Definition isDirty {T : Type} (x : ParseReturnType T) : bool :=
  tag_is Dirty (status_property x).

Definition isValid {T : Type} (x : ParseReturnType T) : bool :=
  tag_is Valid (status_property x).

Definition isAsync {T : Type} (x : ParseReturnType T) : bool :=
  match x with
  | Sync _ => false
  | Async _ _ => true
  end.

(** ** Awaiting *)

(** A computation that may [await]: either it has returned, or it awaits an
    operand and continues with what the operand resolves to. *)
Inductive Task (A : Type) : Type :=
| Return (a : A)
| Await {T : Type} (x : ParseReturnType T) (k : SyncParseReturnType T -> Task A).
Arguments Return {A} _.
Arguments Await {A T} _ _.

Inductive AwaitEvent : Type :=
| AwaitedSync
| AwaitedPromise (pid : nat).

(** How the promise returned by an [async] function settles. *)
Inductive Outcome (A : Type) : Type :=
| Resolved (a : A)
| RejectedWith (reason : JsValue).
Arguments Resolved {A} _.
Arguments RejectedWith {A} _.

Definition await_event {T : Type} (x : ParseReturnType T) : AwaitEvent :=
  match x with
  | Sync _ => AwaitedSync
  | Async pid _ => AwaitedPromise pid
  end.

(** [await x]: a value that is not a promise resolves to itself, a fulfilled
    promise to its result, and a rejected promise throws its reason. *)
Definition settle {T : Type} (x : ParseReturnType T)
    : Outcome (SyncParseReturnType T) :=
  match x with
  | Sync r => Resolved r
  | Async _ (Fulfilled r) => Resolved r
  | Async _ (Rejected e) => RejectedWith e
  end.

(** Runs a task to completion; the first component lists the awaits in the
    order they were performed. *)
Fixpoint run {A : Type} (m : Task A) : list AwaitEvent * Outcome A :=
  match m with
  | Return a => ([], Resolved a)
  | Await x k =>
      match settle x with
      | Resolved r => let (evs, o) := run (k r) in (await_event x :: evs, o)
      | RejectedWith e => ([await_event x], RejectedWith e)
      end
  end.

(** ** ParseStatus *)

(** A pair handed to [mergeObjectSync]; [val] is its [value] property. *)
Record ObjectPair : Type := mkPair {
  key : SyncParseReturnType PropertyKey;
  val : SyncParseReturnType JsValue;
  alwaysSet : option bool
}.

(** The pairs [mergeObjectAsync] accepts: no [alwaysSet] property. *)
Record AsyncPair : Type := mkAsyncPair {
  akey : ParseReturnType PropertyKey;
  aval : ParseReturnType JsValue
}.

(** Truthiness of the optional flag [pair.alwaysSet]. *)
Definition truthy_flag (f : option bool) : bool :=
  match f with
  | Some b => b
  | None => false
  end.

Module ParseStatus.

Record t : Type := mk { value : StatusTag }.

(** [new ParseStatus()] *)
Definition new : t := {| value := Valid |}.

Definition dirty (this : t) : t :=
  match value this with
  | Valid => {| value := Dirty |}
  | _ => this
  end.

Definition abort (this : t) : t :=
  match value this with
  | Aborted => this
  | _ => {| value := Aborted |}
  end.

(** The loop of [mergeArray], with the array built so far. *)
Fixpoint mergeArray_loop (st : t) (arrayValue : list JsValue)
    (results : list (SyncParseReturnType JsValue))
    : t * SyncParseReturnType JsValue :=
  match results with
  | [] => (st, mkResult (value st) (Some (JArray arrayValue)))
  | s :: rest =>
      if StatusTag_eqb (status s) Aborted then (st, INVALID)
      else
        let st' := if StatusTag_eqb (status s) Dirty then dirty st else st in
        mergeArray_loop st' (arrayValue ++ [read_value s]) rest
  end.

Definition mergeArray (st : t) (results : list (SyncParseReturnType JsValue))
    : t * SyncParseReturnType JsValue :=
  mergeArray_loop st [] results.

(** [finalObject[key.value] = value.value] on the object literal being
    filled.  The guard of [mergeObjectSync] has excluded the string
    ["__proto__"], and no number prints as it, so the write is an ordinary
    own-property write. *)
Definition assign (finalObject : JsObject) (p : ObjectPair) : JsObject :=
  set_own finalObject (ToPropertyKey (key_value (key p))) (read_value (val p)).

(** The condition under which a pair is written to [finalObject]. *)
Definition contributes (p : ObjectPair) : bool :=
  not_proto_literal (key_value (key p))
  && (is_defined (read_value (val p)) || truthy_flag (alwaysSet p)).

(** The loop of [mergeObjectSync], with the object built so far. *)
Fixpoint mergeObjectSync_loop (st : t) (finalObject : JsObject)
    (pairs : list ObjectPair) : t * SyncParseReturnType JsValue :=
  match pairs with
  | [] => (st, mkResult (value st) (Some (JObject finalObject)))
  | p :: rest =>
      if StatusTag_eqb (status (key p)) Aborted then (st, INVALID)
      else if StatusTag_eqb (status (val p)) Aborted then (st, INVALID)
      else
        let st1 := if StatusTag_eqb (status (key p)) Dirty then dirty st else st in
        let st2 := if StatusTag_eqb (status (val p)) Dirty then dirty st1 else st1 in
        let finalObject' :=
          if contributes p then assign finalObject p else finalObject in
        mergeObjectSync_loop st2 finalObject' rest
  end.

Definition mergeObjectSync (st : t) (pairs : list ObjectPair)
    : t * SyncParseReturnType JsValue :=
  mergeObjectSync_loop st [] pairs.


Fixpoint mergeObjectAsync_loop (st : t) (syncPairs : list ObjectPair)
    (pairs : list AsyncPair) : Task (t * SyncParseReturnType JsValue) :=
  match pairs with
  | [] => Return (mergeObjectSync st syncPairs)
  | p :: rest =>
      Await (akey p) (fun key =>
      Await (aval p) (fun value =>
      mergeObjectAsync_loop st
        (syncPairs ++ [{| key := key; val := value; alwaysSet := None |}])
        rest))
  end.

Definition mergeObjectAsync (st : t) (pairs : list AsyncPair)
    : Task (t * SyncParseReturnType JsValue) :=
  mergeObjectAsync_loop st [] pairs.

(** The status object once the promise of [mergeObjectAsync] has settled:
    a rejection happens before [mergeObjectSync] is reached. *)
Definition status_after (st : t) (pairs : list AsyncPair) : t :=
  match snd (run (mergeObjectAsync st pairs)) with
  | Resolved (st', _) => st'
  | RejectedWith _ => st
  end.

End ParseStatus.

(** ** Issues and error maps *)

Inductive ParsePathComponent : Type :=
| PathString (s : string)
| PathNumber (n : Z).

Definition ParsePath : Type := list ParsePathComponent.

Definition EMPTY_PATH : ParsePath := [].

(** [IssueData]: the discriminator, the fields that depend on it, and the
    optional [path] and [message]. *)
Record IssueData : Type := mkIssueData {
  code : string;
  payload : list (string * JsValue);
  path : option ParsePath;
  message : option string
}.

Record ZodIssue : Type := mkIssue {
  issue_code : string;
  issue_payload : list (string * JsValue);
  issue_path : ParsePath;
  issue_message : string
}.

(** Second argument of an error map. *)
Record ErrorMapCtx : Type := mkErrorMapCtx {
  data : JsValue;
  defaultError : string
}.

(** An error map is a function object, named by its reference. *)
Definition ZodErrorMap : Type := nat.

(** One call [map(fullIssue, { data, defaultError })]. *)
Record Invocation : Type := mkInvocation {
  inv_map : ZodErrorMap;
  inv_issue : IssueData;
  inv_ctx : ErrorMapCtx
}.

(** [.filter((m) => !!m)]: a function object is truthy, [undefined] is not. *)
Fixpoint present (maps : list (option ZodErrorMap)) : list ZodErrorMap :=
  match maps with
  | [] => []
  | Some m :: rest => m :: present rest
  | None :: rest => present rest
  end.

(** The argument of [makeIssue]; [params_data] and [params_path] are its
    [data] and [path] properties. *)
Record MakeIssueParams : Type := mkParams {
  params_data : JsValue;
  params_path : ParsePath;
  errorMaps : list (option ZodErrorMap);
  issueData : IssueData
}.

(** [issueData.path || []] *)
Definition path_or_empty (d : IssueData) : ParsePath :=
  match path d with
  | Some p => p
  | None => []
  end.

(** [{ ...issueData, path: fullPath, message }] *)
Definition issue_of (d : IssueData) (fullPath : ParsePath) (msg : string) : ZodIssue :=
  {| issue_code := code d; issue_payload := payload d;
     issue_path := fullPath; issue_message := msg |}.

Record Common : Type := mkCommon {
  issues : nat;
  contextualErrorMap : option ZodErrorMap;
  async : bool
}.

(** [ctx_path] and [ctx_data] are the [path] and [data] properties. *)
Inductive ParseContext : Type := mkContext {
  common : Common;
  ctx_path : ParsePath;
  schemaErrorMap : option ZodErrorMap;
  parent : option ParseContext;
  ctx_data : JsValue;
  parsedType : string
}.

(** The module state of [errors.ts] together with the arrays that contexts
    share by reference ([common.issues] is the address of one). *)
Record World : Type := mkWorld {
  overrideErrorMap : ZodErrorMap;
  arrays : nat -> list ZodIssue
}.

Definition setErrorMap (map : ZodErrorMap) (w : World) : World :=
  {| overrideErrorMap := map; arrays := arrays w |}.

Definition getErrorMap (w : World) : ZodErrorMap := overrideErrorMap w.

(** [array.push(x)] on the array at address [a]. *)
Definition push (a : nat) (x : ZodIssue) (w : World) : World :=
  {| overrideErrorMap := overrideErrorMap w;
     arrays := fun b => if Nat.eqb b a then arrays w b ++ [x] else arrays w b |}.

Section ErrorMaps.

(** What calling a function object returns: the [message] of the object it
    returns, given the issue and the context it is called with. *)
Variable behaviour : ZodErrorMap -> IssueData -> ErrorMapCtx -> string.

(** The default export of [locales/en.ts]. *)
Variable defaultErrorMap : ZodErrorMap.

(** [let overrideErrorMap = defaultErrorMap;] *)
Definition initial_world : World :=
  {| overrideErrorMap := defaultErrorMap; arrays := fun _ => [] |}.

(** One iteration of [for (const map of maps)]: the message so far and the
    calls made so far. *)
Definition consult (fullIssue : IssueData) (d : JsValue)
    (acc : string * list Invocation) (map : ZodErrorMap)
    : string * list Invocation :=
  let ctx := {| data := d; defaultError := fst acc |} in
  (behaviour map fullIssue ctx,
   snd acc ++ [{| inv_map := map; inv_issue := fullIssue; inv_ctx := ctx |}]).

(** [makeIssue]: the issue it returns and the calls it made. *)
Definition makeIssue (params : MakeIssueParams) : ZodIssue * list Invocation :=
  let fullPath := params_path params ++ path_or_empty (issueData params) in
  let fullIssue :=
    {| code := code (issueData params); payload := payload (issueData params);
       path := Some fullPath; message := message (issueData params) |} in
  match message (issueData params) with
  | Some m => (issue_of (issueData params) fullPath m, [])
  | None =>
      let maps := rev (present (errorMaps params)) in
      let (errorMessage, calls) :=
        fold_left (consult fullIssue (params_data params)) maps ("", []) in
      (issue_of (issueData params) fullPath errorMessage, calls)
  end.

(** The array literal of [addIssueToContext] before [.filter]. *)
Definition priority_chain (w : World) (ctx : ParseContext)
    : list (option ZodErrorMap) :=
  let overrideMap := getErrorMap w in
  [ contextualErrorMap (common ctx);
    schemaErrorMap ctx;
    Some overrideMap;
    if Nat.eqb overrideMap defaultErrorMap then None else Some defaultErrorMap ].

Definition addIssueToContext (w : World) (ctx : ParseContext) (d : IssueData)
    : World * list Invocation :=
  let (issue, calls) :=
    makeIssue {| issueData := d;
                 params_data := ctx_data ctx;
                 params_path := ctx_path ctx;
                 errorMaps := map Some (present (priority_chain w ctx)) |} in
  (push (issues (common ctx)) issue w, calls).

End ErrorMaps.

(** ** Notions used to state the properties *)

(** [status.dirty()] called when [b] holds. *)
Definition dirty_when (b : bool) (st : ParseStatus.t) : ParseStatus.t :=
  if b then ParseStatus.dirty st else st.

Definition result_aborted {T : Type} (s : SyncParseReturnType T) : bool :=
  StatusTag_eqb (status s) Aborted.

Definition result_dirty {T : Type} (s : SyncParseReturnType T) : bool :=
  StatusTag_eqb (status s) Dirty.

Definition pair_aborted (p : ObjectPair) : bool :=
  result_aborted (key p) || result_aborted (val p).

Definition pair_dirty (p : ObjectPair) : bool :=
  result_dirty (key p) || result_dirty (val p).

(** The pair [{ key, value }] pushed to [syncPairs] for a pair whose two
    operands resolve. *)
Definition resolve_pair (p : AsyncPair) : option ObjectPair :=
  match settle (akey p), settle (aval p) with
  | Resolved k, Resolved v => Some {| key := k; val := v; alwaysSet := None |}
  | _, _ => None
  end.

Fixpoint resolve_pairs (pairs : list AsyncPair) : option (list ObjectPair) :=
  match pairs with
  | [] => Some []
  | p :: rest =>
      match resolve_pair p, resolve_pairs rest with
      | Some q, Some qs => Some (q :: qs)
      | _, _ => None
      end
  end.

(** Key first, then value, pair after pair. *)
Definition await_order (pairs : list AsyncPair) : list AwaitEvent :=
  flat_map (fun p => [await_event (akey p); await_event (aval p)]) pairs.

Inductive StatusOp : Type :=
| OpDirty
| OpAbort
| OpMergeArray (results : list (SyncParseReturnType JsValue))
| OpMergeObjectSync (pairs : list ObjectPair)
| OpMergeObjectAsync (pairs : list AsyncPair).

(** The status object after one operation. *)
Definition apply_op (st : ParseStatus.t) (op : StatusOp) : ParseStatus.t :=
  match op with
  | OpDirty => ParseStatus.dirty st
  | OpAbort => ParseStatus.abort st
  | OpMergeArray results => fst (ParseStatus.mergeArray st results)
  | OpMergeObjectSync pairs => fst (ParseStatus.mergeObjectSync st pairs)
  | OpMergeObjectAsync pairs => ParseStatus.status_after st pairs
  end.

Definition no_aborted (results : list (SyncParseReturnType JsValue)) : Prop :=
  Forall (fun s => status s <> Aborted) results.

Definition some_dirty (results : list (SyncParseReturnType JsValue)) : Prop :=
  Exists (fun s => status s = Dirty) results.

Definition pair_has_aborted (p : ObjectPair) : Prop :=
  status (key p) = Aborted \/ status (val p) = Aborted.

Definition pair_has_dirty (p : ObjectPair) : Prop :=
  status (key p) = Dirty \/ status (val p) = Dirty.

(** The name a pair is stored under. *)
Definition property_name (p : ObjectPair) : string :=
  ToPropertyKey (key_value (key p)).

(** The pair is written, and under this name. *)
Definition writes (name : string) (p : ObjectPair) : bool :=
  ParseStatus.contributes p && String.eqb (property_name p) name.

(** The value the last writing pair leaves under a name. *)
Definition last_written (name : string) (pairs : list ObjectPair)
    (before : option JsValue) : option JsValue :=
  fold_left
    (fun acc p => if writes name p then Some (read_value (val p)) else acc)
    pairs before.

Definition object_pairs_example : list ObjectPair :=
  [ {| key := OK (KString "a"); val := OK (JNumber 1); alwaysSet := None |};
    {| key := OK (KString "__proto__");
       val := DIRTY (JObject [("polluted", JBool true)]); alwaysSet := Some true |};
    {| key := OK (KString "b"); val := OK JUndefined; alwaysSet := None |};
    {| key := OK (KString "c"); val := OK JUndefined; alwaysSet := Some true |};
    {| key := OK (KNumber 1); val := OK (JNumber 2); alwaysSet := None |};
    {| key := OK (KString "a"); val := OK (JNumber 3); alwaysSet := None |} ].

(** Three instrumented maps: map 1 always answers ["override"], map 2
    decorates the default it is given, any other map answers as the locale
    would. *)
Definition example_behaviour (m : ZodErrorMap) (i : IssueData) (c : ErrorMapCtx)
    : string :=
  match m with
  | 1 => "override"
  | 2 => defaultError c ++ " (schema)"
  | _ => "Invalid input"
  end.

Definition example_issue_data (msg : option string) : IssueData :=
  {| code := "invalid_type";
     payload := [("expected", JString "string"); ("received", JString "number")];
     path := Some [PathString "b"];
     message := msg |}.

Definition example_params (maps : list (option ZodErrorMap)) (msg : option string)
    : MakeIssueParams :=
  {| params_data := JNumber 123;
     params_path := [PathString "a"; PathNumber 0];
     errorMaps := maps;
     issueData := example_issue_data msg |}.

Definition async_pairs_example : list AsyncPair :=
  [ {| akey := Sync (OK (KString "a"));
       aval := Async 7 (Fulfilled (DIRTY (JNumber 1))) |};
    {| akey := Async 8 (Fulfilled (OK (KString "b")));
       aval := Sync (OK (JNumber 2)) |} ].

Section MessageResolution.

Variable behaviour : ZodErrorMap -> IssueData -> ErrorMapCtx -> string.

(** The message a recorded call returned. *)
Definition returned (c : Invocation) : string :=
  behaviour (inv_map c) (inv_issue c) (inv_ctx c).

(** Each call received as [defaultError] the message the call before it
    returned, the first one receiving [prev]. *)
Fixpoint chained (prev : string) (calls : list Invocation) : Prop :=
  match calls with
  | [] => True
  | c :: rest => defaultError (inv_ctx c) = prev /\ chained (returned c) rest
  end.

(** The message returned by the last call, [prev] when there is none. *)
Definition final_message (prev : string) (calls : list Invocation) : string :=
  fold_left (fun _ c => returned c) calls prev.

Variable fullIssue : IssueData.
Variable d : JsValue.

(** Resolution read along the supplied (priority) order: a map is handed
    what the maps after it resolve to. *)
Fixpoint resolve (maps : list ZodErrorMap) : string :=
  match maps with
  | [] => ""
  | m :: rest =>
      behaviour m fullIssue {| data := d; defaultError := resolve rest |}
  end.

Definition call_of (m : ZodErrorMap) (rest : list ZodErrorMap) : Invocation :=
  {| inv_map := m; inv_issue := fullIssue;
     inv_ctx := {| data := d; defaultError := resolve rest |} |}.

Fixpoint calls_of (maps : list ZodErrorMap) : list Invocation :=
  match maps with
  | [] => []
  | m :: rest => calls_of rest ++ [call_of m rest]
  end.

End MessageResolution.

(** [{ ...issueData, path: fullPath }] as [makeIssue] hands it to the maps. *)
Definition full_issue (params : MakeIssueParams) : IssueData :=
  {| code := code (issueData params); payload := payload (issueData params);
     path := Some (params_path params ++ path_or_empty (issueData params));
     message := message (issueData params) |}.

(** The two global entries of the chain of [addIssueToContext]. *)
Definition global_maps (defaultErrorMap : ZodErrorMap) (w : World)
    : list ZodErrorMap :=
  if Nat.eqb (getErrorMap w) defaultErrorMap
  then [getErrorMap w]
  else [getErrorMap w; defaultErrorMap].

(** ** Notions used for the further properties *)


(** Names of the own properties, in creation order. *)
Definition own_names (o : JsObject) : list string := map fst o.

(** The awaits made for a pair one of whose operands rejects, and the reason:
    the value is not awaited when the key rejects. *)
Definition pair_rejection (p : AsyncPair) : option (list AwaitEvent * JsValue) :=
  match settle (akey p) with
  | RejectedWith e => Some ([await_event (akey p)], e)
  | Resolved _ =>
      match settle (aval p) with
      | RejectedWith e => Some ([await_event (akey p); await_event (aval p)], e)
      | Resolved _ => None
      end
  end.

(** The same parameters with another [errorMaps] array. *)
Definition with_maps (params : MakeIssueParams) (maps : list (option ZodErrorMap))
    : MakeIssueParams :=
  {| params_data := params_data params; params_path := params_path params;
     errorMaps := maps; issueData := issueData params |}.

(** The issue as the maps of [addIssueToContext] receive it. *)
Definition context_issue (ctx : ParseContext) (d : IssueData) : IssueData :=
  {| code := code d; payload := payload d;
     path := Some (ctx_path ctx ++ path_or_empty d); message := message d |}.

(** Calls of [addIssueToContext] one after the other, each on the world the
    previous one left. *)
Definition raise_all (behaviour : ZodErrorMap -> IssueData -> ErrorMapCtx -> string)
    (defaultErrorMap : ZodErrorMap) (w : World)
    (raised : list (ParseContext * IssueData)) : World :=
  fold_left
    (fun w' r => fst (addIssueToContext behaviour defaultErrorMap w' (fst r) (snd r)))
    raised w.

(** Instrumented maps for a chain with a map that only passes on the default
    it is given (map 0), a map that prefixes it (map 1), and the locale. *)
Definition fallback_behaviour (m : ZodErrorMap) (i : IssueData) (c : ErrorMapCtx)
    : string :=
  match m with
  | 0 => defaultError c
  | 1 => "Field: " ++ defaultError c
  | _ => "Required"
  end.

(** A context on the array at address 0. *)
Definition example_context (contextual schema : option ZodErrorMap)
    (segments : ParsePath) : ParseContext :=
  {| common := {| issues := 0; contextualErrorMap := contextual; async := false |};
     ctx_path := segments; schemaErrorMap := schema; parent := None;
     ctx_data := JNumber 123; parsedType := "number" |}.

(** * Properties *)

(** ** Status transitions *)

Lemma StatusTag_eqb_eq (a b : StatusTag) : StatusTag_eqb a b = true <-> a = b.
Proof. destruct a, b; simpl; split; congruence. Qed.

Lemma StatusTag_eqb_neq (a b : StatusTag) : StatusTag_eqb a b = false <-> a <> b.
Proof. destruct a, b; simpl; split; congruence. Qed.

Lemma dirty_idempotent (st : ParseStatus.t) :
  ParseStatus.dirty (ParseStatus.dirty st) = ParseStatus.dirty st.
Proof. destruct st as [[]]; reflexivity. Qed.

Lemma dirty_monotone (st : ParseStatus.t) :
  status_le (ParseStatus.value st) (ParseStatus.value (ParseStatus.dirty st)).
Proof. destruct st as [[]]; unfold status_le; simpl; lia. Qed.

Lemma abort_monotone (st : ParseStatus.t) :
  status_le (ParseStatus.value st) (ParseStatus.value (ParseStatus.abort st)).
Proof. destruct st as [[]]; unfold status_le; simpl; lia. Qed.

Lemma status_le_refl (a : StatusTag) : status_le a a.
Proof. unfold status_le; lia. Qed.

Lemma status_le_trans (a b c : StatusTag) :
  status_le a b -> status_le b c -> status_le a c.
Proof. unfold status_le; lia. Qed.

Lemma dirty_when_orb (a b : bool) (st : ParseStatus.t) :
  dirty_when b (dirty_when a st) = dirty_when (a || b) st.
Proof. destruct a, b; simpl; auto using dirty_idempotent. Qed.

Lemma dirty_when_monotone (b : bool) (st : ParseStatus.t) :
  status_le (ParseStatus.value st) (ParseStatus.value (dirty_when b st)).
Proof. destruct b; simpl; auto using dirty_monotone, status_le_refl. Qed.

(** *** The loops on a prefix without aborted elements *)

Lemma mergeArray_loop_prefix (pre rest : list (SyncParseReturnType JsValue)) :
  forall st arrayValue,
    forallb (fun s => negb (result_aborted s)) pre = true ->
    ParseStatus.mergeArray_loop st arrayValue (pre ++ rest) =
    ParseStatus.mergeArray_loop (dirty_when (existsb result_dirty pre) st)
      (arrayValue ++ map read_value pre) rest.
Proof.
  induction pre as [|s pre IH]; intros st arrayValue Hclean; simpl.
  - now rewrite app_nil_r.
  - simpl in Hclean. apply andb_true_iff in Hclean as [Hs Hpre].
    unfold result_aborted in Hs. apply negb_true_iff in Hs. rewrite Hs.
    rewrite IH by assumption.
    fold (dirty_when (StatusTag_eqb (status s) Dirty) st).
    rewrite dirty_when_orb. unfold result_dirty at 2.
    now rewrite <- app_assoc.
Qed.

Lemma mergeObjectSync_loop_prefix (pre rest : list ObjectPair) :
  forall st finalObject,
    forallb (fun p => negb (pair_aborted p)) pre = true ->
    ParseStatus.mergeObjectSync_loop st finalObject (pre ++ rest) =
    ParseStatus.mergeObjectSync_loop (dirty_when (existsb pair_dirty pre) st)
      (fold_left ParseStatus.assign (filter ParseStatus.contributes pre) finalObject)
      rest.
Proof.
  induction pre as [|p pre IH]; intros st finalObject Hclean; simpl.
  - reflexivity.
  - simpl in Hclean. apply andb_true_iff in Hclean as [Hp Hpre].
    unfold pair_aborted, result_aborted in Hp.
    apply negb_true_iff, orb_false_iff in Hp as [Hk Hv]. rewrite Hk, Hv.
    fold (dirty_when (StatusTag_eqb (status (key p)) Dirty) st).
    fold (dirty_when (StatusTag_eqb (status (val p)) Dirty)
            (dirty_when (StatusTag_eqb (status (key p)) Dirty) st)).
    rewrite dirty_when_orb.
    destruct (ParseStatus.contributes p); simpl;
      rewrite IH by assumption; rewrite dirty_when_orb; reflexivity.
Qed.

Lemma mergeArray_status_monotone (st : ParseStatus.t)
    (results : list (SyncParseReturnType JsValue)) :
  status_le (ParseStatus.value st)
    (ParseStatus.value (fst (ParseStatus.mergeArray st results))).
Proof.
  unfold ParseStatus.mergeArray. generalize (@nil JsValue) as acc.
  revert st. induction results as [|s rest IH]; intros st acc; simpl.
  - apply status_le_refl.
  - destruct (StatusTag_eqb (status s) Aborted); simpl.
    + apply status_le_refl.
    + eapply status_le_trans; [|apply IH].
      apply (dirty_when_monotone (StatusTag_eqb (status s) Dirty)).
Qed.

Lemma mergeObjectSync_status_monotone (st : ParseStatus.t) (pairs : list ObjectPair) :
  status_le (ParseStatus.value st)
    (ParseStatus.value (fst (ParseStatus.mergeObjectSync st pairs))).
Proof.
  unfold ParseStatus.mergeObjectSync. generalize (@nil (string * JsValue)) as acc.
  revert st. induction pairs as [|p rest IH]; intros st acc; simpl.
  - apply status_le_refl.
  - destruct (StatusTag_eqb (status (key p)) Aborted); simpl;
      [apply status_le_refl|].
    destruct (StatusTag_eqb (status (val p)) Aborted); simpl;
      [apply status_le_refl|].
    eapply status_le_trans; [|apply IH].
    eapply status_le_trans.
    + apply (dirty_when_monotone (StatusTag_eqb (status (key p)) Dirty)).
    + apply (dirty_when_monotone (StatusTag_eqb (status (val p)) Dirty)).
Qed.

(** *** Awaited pairs *)

Lemma run_mergeObjectAsync_loop (pairs : list AsyncPair) :
  forall st syncPairs resolved,
    resolve_pairs pairs = Some resolved ->
    run (ParseStatus.mergeObjectAsync_loop st syncPairs pairs) =
    (await_order pairs,
     Resolved (ParseStatus.mergeObjectSync st (syncPairs ++ resolved))).
Proof.
  induction pairs as [|p rest IH]; intros st syncPairs resolved Hres.
  - simpl in Hres. injection Hres as <-. simpl. now rewrite app_nil_r.
  - simpl in Hres. unfold resolve_pair in Hres. simpl.
    destruct (settle (akey p)) as [k|]; [|discriminate].
    destruct (settle (aval p)) as [v|]; [|discriminate].
    destruct (resolve_pairs rest) as [qs|]; [|discriminate].
    injection Hres as <-.
    rewrite (IH st _ qs eq_refl). now rewrite <- app_assoc.
Qed.

Lemma mergeObjectAsync_settles (pairs : list AsyncPair) :
  forall st syncPairs,
    match snd (run (ParseStatus.mergeObjectAsync_loop st syncPairs pairs)) with
    | Resolved out => exists synced, out = ParseStatus.mergeObjectSync st synced
    | RejectedWith _ => True
    end.
Proof.
  induction pairs as [|p rest IH]; intros st syncPairs; simpl.
  - now exists syncPairs.
  - destruct (settle (akey p)) as [k|]; simpl; [|exact I].
    destruct (settle (aval p)) as [v|]; simpl.
    + specialize (IH st (syncPairs ++ [{| key := k; val := v; alwaysSet := None |}])).
      destruct (run _) as [evs o]; simpl in *. exact IH.
    + exact I.
Qed.

Lemma mergeObjectAsync_status_monotone (st : ParseStatus.t) (pairs : list AsyncPair) :
  status_le (ParseStatus.value st)
    (ParseStatus.value (ParseStatus.status_after st pairs)).
Proof.
  unfold ParseStatus.status_after, ParseStatus.mergeObjectAsync.
  pose proof (mergeObjectAsync_settles pairs st []) as H.
  destruct (snd _) as [[st' r]|e].
  - destruct H as [synced H].
    replace st' with (fst (ParseStatus.mergeObjectSync st synced))
      by now rewrite <- H.
    apply mergeObjectSync_status_monotone.
  - apply status_le_refl.
Qed.

(** *** Sequences of operations on one status object *)

Lemma apply_op_monotone (st : ParseStatus.t) (op : StatusOp) :
  status_le (ParseStatus.value st) (ParseStatus.value (apply_op st op)).
Proof.
  destruct op; simpl;
    auto using dirty_monotone, abort_monotone, mergeArray_status_monotone,
      mergeObjectSync_status_monotone, mergeObjectAsync_status_monotone.
Qed.

Lemma apply_ops_monotone (ops : list StatusOp) :
  forall st,
    status_le (ParseStatus.value st)
      (ParseStatus.value (fold_left apply_op ops st)).
Proof.
  induction ops as [|op ops IH]; intros st; simpl.
  - apply status_le_refl.
  - eapply status_le_trans; [apply apply_op_monotone | apply IH].
Qed.

(** C1. Along any sequence of calls to [dirty()], [abort()], [mergeArray],
    [mergeObjectSync] and [mergeObjectAsync] on one status object, its value
    never moves down the order valid < dirty < aborted: a status that is
    aborted stays aborted, and a status that is dirty is afterwards dirty
    or aborted. *)
Theorem status_never_decreases (st : ParseStatus.t) (ops : list StatusOp) :
  let st' := fold_left apply_op ops st in
  status_le (ParseStatus.value st) (ParseStatus.value st')
  /\ (ParseStatus.value st = Aborted -> ParseStatus.value st' = Aborted)
  /\ (ParseStatus.value st = Dirty ->
      ParseStatus.value st' = Dirty \/ ParseStatus.value st' = Aborted).
Proof.
  intros st'. pose proof (apply_ops_monotone ops st) as H. fold st' in H.
  unfold status_le in *.
  repeat split; try assumption; intros E; rewrite E in H;
    destruct (ParseStatus.value st'); simpl in H; try lia; auto.
Qed.

Lemma status_never_decreases_witness :
  ParseStatus.value
    (fold_left apply_op
       [OpMergeArray [DIRTY JNull; INVALID]; OpDirty;
        OpMergeObjectAsync [{| akey := Async 1 (Rejected JNull); aval := Sync INVALID |}]]
       (ParseStatus.mk Aborted)) = Aborted.
Proof.
  apply (status_never_decreases (ParseStatus.mk Aborted)). reflexivity.
Defined.

(** ** mergeArray *)

(** C2. Whatever the status object and the other elements are, a sequence
    with an aborted element makes [mergeArray] return [INVALID]. *)
Theorem mergeArray_aborted_element (st : ParseStatus.t)
    (results : list (SyncParseReturnType JsValue)) :
  Exists (fun s => status s = Aborted) results ->
  snd (ParseStatus.mergeArray st results) = INVALID.
Proof.
  unfold ParseStatus.mergeArray. generalize (@nil JsValue) as acc. revert st.
  induction results as [|s rest IH]; intros st acc Hex.
  - inversion Hex.
  - simpl. destruct (StatusTag_eqb (status s) Aborted) eqn:E; [reflexivity|].
    apply IH. inversion Hex as [? ? Hs|? ? Hrest]; subst; [|assumption].
    apply StatusTag_eqb_neq in E. contradiction.
Qed.

Lemma mergeArray_aborted_element_witness :
  snd (ParseStatus.mergeArray ParseStatus.new
         [OK (JNumber 1); DIRTY (JString "x"); INVALID; OK (JNumber 3)]) = INVALID.
Proof.
  apply mergeArray_aborted_element.
  apply Exists_cons_tl, Exists_cons_tl, Exists_cons_hd. reflexivity.
Defined.

Lemma no_aborted_forallb (results : list (SyncParseReturnType JsValue)) :
  no_aborted results ->
  forallb (fun s => negb (result_aborted s)) results = true.
Proof.
  intros H. apply forallb_forall. intros s Hin.
  apply negb_true_iff, StatusTag_eqb_neq.
  exact (proj1 (Forall_forall _ _) H s Hin).
Qed.

Lemma some_dirty_existsb (results : list (SyncParseReturnType JsValue)) :
  some_dirty results -> existsb result_dirty results = true.
Proof.
  intros H. apply Exists_exists in H as [s [Hin Hs]].
  apply existsb_exists. exists s. split; [assumption|].
  now apply StatusTag_eqb_eq.
Qed.

Lemma dirty_of_not_aborted (st : ParseStatus.t) :
  ParseStatus.value st <> Aborted ->
  ParseStatus.dirty st = ParseStatus.mk Dirty.
Proof. destruct st as [[]]; simpl; intros H; try reflexivity. now elim H. Qed.

(** C3, as amended.  When the status object is not aborted on entry, a
    sequence without aborted elements and with a dirty one makes [mergeArray]
    leave the status dirty and return a dirty result whose value is the array
    of all element values in input order. *)
Theorem mergeArray_dirty_keeps_values (st : ParseStatus.t)
    (results : list (SyncParseReturnType JsValue)) :
  ParseStatus.value st <> Aborted ->
  no_aborted results ->
  some_dirty results ->
  ParseStatus.mergeArray st results =
  (ParseStatus.mk Dirty,
   {| status := Dirty; value := Some (JArray (map read_value results)) |}).
Proof.
  intros Hst Hclean Hdirty. unfold ParseStatus.mergeArray.
  rewrite <- (app_nil_r results) at 1.
  rewrite mergeArray_loop_prefix by now apply no_aborted_forallb.
  rewrite some_dirty_existsb by assumption. simpl.
  now rewrite dirty_of_not_aborted.
Qed.

Lemma mergeArray_dirty_keeps_values_witness :
  ParseStatus.mergeArray ParseStatus.new
    [OK (JNumber 1); DIRTY (JString "x"); OK (JNumber 3)] =
  (ParseStatus.mk Dirty,
   DIRTY (JArray [JNumber 1; JString "x"; JNumber 3])).
Proof.
  apply (mergeArray_dirty_keeps_values ParseStatus.new
           [OK (JNumber 1); DIRTY (JString "x"); OK (JNumber 3)]).
  - discriminate.
  - repeat constructor; discriminate.
  - apply Exists_cons_tl, Exists_cons_hd. reflexivity.
Defined.

(** C3 as stated fails: with a status object that is already aborted, the one
    dirty element [DIRTY(1)] gives [{ status: "aborted", value: [1] }]. *)
Lemma mergeArray_dirty_status_counterexample :
  ~ (forall (st : ParseStatus.t) (results : list (SyncParseReturnType JsValue)),
       no_aborted results -> some_dirty results ->
       status (snd (ParseStatus.mergeArray st results)) = Dirty).
Proof.
  intros H.
  specialize (H (ParseStatus.mk Aborted) [DIRTY (JNumber 1)]).
  assert (Hc : no_aborted [DIRTY (JNumber 1)]) by (repeat constructor; discriminate).
  assert (Hd : some_dirty [DIRTY (JNumber 1)]) by (constructor; reflexivity).
  specialize (H Hc Hd). discriminate H.
Qed.

(** ** Merges that fail after a dirty element *)

Lemma pair_clean_forallb (pairs : list ObjectPair) :
  Forall (fun p => ~ pair_has_aborted p) pairs ->
  forallb (fun p => negb (pair_aborted p)) pairs = true.
Proof.
  intros H. apply forallb_forall. intros p Hin.
  pose proof (proj1 (Forall_forall _ _) H p Hin) as Hp.
  unfold pair_has_aborted in Hp. unfold pair_aborted, result_aborted.
  apply negb_true_iff, orb_false_iff.
  split; apply StatusTag_eqb_neq; intros E; apply Hp; auto.
Qed.

Lemma pair_dirty_existsb (pairs : list ObjectPair) :
  Exists pair_has_dirty pairs -> existsb pair_dirty pairs = true.
Proof.
  intros H. apply Exists_exists in H as [p [Hin Hp]].
  apply existsb_exists. exists p. split; [assumption|].
  unfold pair_dirty, result_dirty. apply orb_true_iff.
  destruct Hp as [Hp|Hp]; [left|right]; now apply StatusTag_eqb_eq.
Qed.

(** C10. Starting from a valid status object, if an element that is dirty
    comes before the first aborted element, [mergeArray] returns [INVALID] and
    leaves the status dirty; likewise [mergeObjectSync] when a pair with a
    dirty key or value comes before the first pair with an aborted key or
    value. *)
Theorem failed_merge_keeps_dirty (st : ParseStatus.t) :
  ParseStatus.value st = Valid ->
  (forall pre a post,
     no_aborted pre -> some_dirty pre -> status a = Aborted ->
     ParseStatus.mergeArray st (pre ++ a :: post) = (ParseStatus.mk Dirty, INVALID))
  /\
  (forall pre p post,
     Forall (fun q => ~ pair_has_aborted q) pre ->
     Exists pair_has_dirty pre ->
     pair_has_aborted p ->
     ParseStatus.mergeObjectSync st (pre ++ p :: post) =
     (ParseStatus.mk Dirty, INVALID)).
Proof.
  intros Hst.
  assert (Hd : ParseStatus.dirty st = ParseStatus.mk Dirty)
    by (apply dirty_of_not_aborted; rewrite Hst; discriminate).
  split.
  - intros pre a post Hclean Hdirty Ha. unfold ParseStatus.mergeArray.
    rewrite mergeArray_loop_prefix by now apply no_aborted_forallb.
    rewrite some_dirty_existsb by assumption. simpl.
    rewrite Ha, Hd. reflexivity.
  - intros pre p post Hclean Hdirty Hp. unfold ParseStatus.mergeObjectSync.
    rewrite mergeObjectSync_loop_prefix by now apply pair_clean_forallb.
    rewrite pair_dirty_existsb by assumption. simpl. rewrite Hd.
    destruct Hp as [Hp|Hp]; rewrite Hp; simpl; [reflexivity|].
    destruct (StatusTag_eqb (status (key p)) Aborted); reflexivity.
Qed.

Lemma failed_merge_keeps_dirty_witness :
  ParseStatus.mergeArray ParseStatus.new
    ([OK (JNumber 1); DIRTY (JNumber 2)] ++ INVALID :: [OK (JNumber 4)]) =
  (ParseStatus.mk Dirty, INVALID)
  /\
  ParseStatus.mergeObjectSync ParseStatus.new
    ([{| key := OK (KString "a"); val := DIRTY (JNumber 1); alwaysSet := None |}]
     ++ {| key := OK (KString "b"); val := INVALID; alwaysSet := None |}
     :: [{| key := OK (KString "c"); val := OK JNull; alwaysSet := None |}]) =
  (ParseStatus.mk Dirty, INVALID).
Proof.
  destruct (failed_merge_keeps_dirty ParseStatus.new eq_refl) as [Harr Hobj].
  split.
  - apply Harr.
    + repeat constructor; discriminate.
    + apply Exists_cons_tl, Exists_cons_hd. reflexivity.
    + reflexivity.
  - apply Hobj.
    + repeat constructor. intros [H|H]; discriminate H.
    + apply Exists_cons_hd. right. reflexivity.
    + right. reflexivity.
Defined.

(** Within one pair the aborted tests come before both dirty marks: a dirty
    key whose value is aborted leaves a valid status valid. *)
Example dirty_key_of_aborted_pair_not_marked :
  ParseStatus.mergeObjectSync ParseStatus.new
    [{| key := DIRTY (KString "a"); val := INVALID; alwaysSet := None |}] =
  (ParseStatus.mk Valid, INVALID).
Proof. reflexivity. Qed.

(** ** mergeObjectSync *)

Lemma get_set_same (o : JsObject) (name : string) (v : JsValue) :
  get_own (set_own o name v) name = Some v.
Proof.
  induction o as [|[n w] rest IH]; simpl.
  - now rewrite String.eqb_refl.
  - destruct (String.eqb n name) eqn:E; simpl; rewrite E; auto.
Qed.

Lemma get_set_other (o : JsObject) (name other : string) (v : JsValue) :
  name <> other ->
  get_own (set_own o name v) other = get_own o other.
Proof.
  intros Hne. induction o as [|[n w] rest IH]; simpl.
  - apply String.eqb_neq in Hne. now rewrite Hne.
  - destruct (String.eqb n name) eqn:E; simpl.
    + apply String.eqb_eq in E. subst n.
      apply String.eqb_neq in Hne. now rewrite Hne.
    + destruct (String.eqb n other); auto.
Qed.

Lemma get_own_merged (name : string) (pairs : list ObjectPair) :
  forall o,
    get_own (fold_left ParseStatus.assign (filter ParseStatus.contributes pairs) o)
      name
    = last_written name pairs (get_own o name).
Proof.
  unfold last_written.
  induction pairs as [|p rest IH]; intros o; simpl; [reflexivity|].
  unfold writes at 2.
  destruct (ParseStatus.contributes p); simpl; [|apply IH].
  rewrite IH. f_equal. unfold ParseStatus.assign. fold (property_name p).
  destruct (String.eqb (property_name p) name) eqn:E.
  - apply String.eqb_eq in E. subst name. apply get_set_same.
  - apply String.eqb_neq in E. now apply get_set_other.
Qed.

Lemma last_written_app (name : string) (pre post : list ObjectPair)
    (before : option JsValue) :
  last_written name (pre ++ post) before =
  last_written name post (last_written name pre before).
Proof. unfold last_written. apply fold_left_app. Qed.

Lemma last_written_unwritten (name : string) (pairs : list ObjectPair) :
  forall before,
    (forall q, In q pairs -> writes name q = false) ->
    last_written name pairs before = before.
Proof.
  unfold last_written.
  induction pairs as [|p rest IH]; intros before H; simpl; [reflexivity|].
  rewrite (H p) by now left. apply IH. intros q Hq. apply H. now right.
Qed.

Lemma last_written_some (name : string) (pairs : list ObjectPair) :
  forall before,
    (exists v, last_written name pairs before = Some v) <->
    (exists v, before = Some v) \/ (exists p, In p pairs /\ writes name p = true).
Proof.
  unfold last_written.
  induction pairs as [|p rest IH]; intros before; simpl.
  - split; [auto|]. intros [H|[p [[] _]]]; assumption.
  - rewrite IH. destruct (writes name p) eqn:E.
    + split; intros _.
      * right. exists p. auto.
      * left. eauto.
    + split.
      * intros [H|[q [Hq Hw]]]; [now left|]. right. exists q. auto.
      * intros [H|[q [[<-|Hq] Hw]]]; [now left|congruence|]. right. eauto.
Qed.

Lemma number_name_not_proto (n : Z) :
  NilZero.string_of_int (Z.to_int n) <> "__proto__".
Proof.
  destruct (Z.to_int n) as [u|u]; destruct u; simpl; discriminate.
Qed.

(** A pair that passes the guard is never stored under ["__proto__"]. *)
Lemma writes_not_proto (p : ObjectPair) : writes "__proto__" p = false.
Proof.
  unfold writes, ParseStatus.contributes, property_name.
  destruct (key_value (key p)) as [[s|n]|]; simpl.
  - destruct (String.eqb s "__proto__"); simpl; [reflexivity|].
    apply andb_false_r.
  - replace (String.eqb _ _) with false; [apply andb_false_r|].
    symmetry. apply String.eqb_neq, number_name_not_proto.
  - apply andb_false_r.
Qed.

(** C4. For pairs without an aborted key or value, the object returned by
    [mergeObjectSync] is the one obtained by writing, in order, exactly the
    pairs whose key is not the string ["__proto__"] and whose value is defined
    or flagged [alwaysSet]; the other pairs are skipped.  So a property exists
    in the output exactly when such a pair is stored under its name, it holds
    the value of the last such pair, and ["__proto__"] is never an own
    property.  The status depends on the dirty results alone, whether or not
    their pairs were written. *)
Theorem mergeObjectSync_writes_contributing_pairs (st : ParseStatus.t)
    (pairs : list ObjectPair) :
  Forall (fun p => ~ pair_has_aborted p) pairs ->
  let finalObject :=
    fold_left ParseStatus.assign (filter ParseStatus.contributes pairs) [] in
  let st' := dirty_when (existsb pair_dirty pairs) st in
  ParseStatus.mergeObjectSync st pairs =
    (st', {| status := ParseStatus.value st'; value := Some (JObject finalObject) |})
  /\ (forall p, ParseStatus.contributes p =
        not_proto_literal (key_value (key p))
        && (is_defined (read_value (val p)) || truthy_flag (alwaysSet p)))
  /\ (forall name,
        (exists v, get_own finalObject name = Some v) <->
        (exists p, In p pairs /\ ParseStatus.contributes p = true
                   /\ property_name p = name))
  /\ (forall pre p post,
        pairs = pre ++ p :: post ->
        ParseStatus.contributes p = true ->
        (forall q, In q post -> ParseStatus.contributes q = true ->
                   property_name q <> property_name p) ->
        get_own finalObject (property_name p) = Some (read_value (val p)))
  /\ get_own finalObject "__proto__" = None.
Proof.
  intros Hclean finalObject st'. repeat split.
  - unfold ParseStatus.mergeObjectSync.
    rewrite <- (app_nil_r pairs) at 1.
    rewrite mergeObjectSync_loop_prefix by now apply pair_clean_forallb.
    reflexivity.
  - intros Hex. subst finalObject. rewrite get_own_merged in Hex.
    apply last_written_some in Hex as [[v Hv]|[p [Hin Hw]]]; [discriminate|].
    exists p. unfold writes in Hw. apply andb_true_iff in Hw as [Hc Hn].
    apply String.eqb_eq in Hn. auto.
  - intros [p [Hin [Hc Hn]]]. subst finalObject. rewrite get_own_merged.
    apply last_written_some. right. exists p. split; [assumption|].
    unfold writes. rewrite Hc. simpl. now apply String.eqb_eq.
  - intros pre p post -> Hc Hlast. subst finalObject.
    rewrite get_own_merged, last_written_app.
    change (p :: post) with ([p] ++ post). rewrite last_written_app.
    rewrite last_written_unwritten.
    + unfold last_written, writes. simpl. rewrite Hc, String.eqb_refl. reflexivity.
    + intros q Hq. unfold writes.
      destruct (ParseStatus.contributes q) eqn:Hcq; [|reflexivity].
      simpl. apply String.eqb_neq. now apply Hlast.
  - subst finalObject. rewrite get_own_merged.
    apply last_written_unwritten. intros q _. apply writes_not_proto.
Qed.

Lemma mergeObjectSync_writes_contributing_pairs_witness :
  ParseStatus.mergeObjectSync ParseStatus.new object_pairs_example =
  (ParseStatus.mk Dirty,
   DIRTY (JObject [("a", JNumber 3); ("c", JUndefined); ("1", JNumber 2)])).
Proof.
  assert (Hclean : Forall (fun p => ~ pair_has_aborted p) object_pairs_example)
    by (repeat constructor; intros [H|H]; discriminate H).
  destruct (mergeObjectSync_writes_contributing_pairs
              ParseStatus.new object_pairs_example Hclean) as [Hmerge _].
  rewrite Hmerge. reflexivity.
Defined.

(** ** makeIssue *)

Lemma present_map_Some (maps : list ZodErrorMap) : present (map Some maps) = maps.
Proof. induction maps as [|m rest IH]; simpl; congruence. Qed.

Lemma present_app (a b : list (option ZodErrorMap)) :
  present (a ++ b) = present a ++ present b.
Proof.
  induction a as [|[m|] rest IH]; simpl; congruence.
Qed.

Section ErrorMapProperties.

Variable behaviour : ZodErrorMap -> IssueData -> ErrorMapCtx -> string.
Variable defaultErrorMap : ZodErrorMap.

Section Resolution.

Variable fullIssue : IssueData.
Variable d : JsValue.

Lemma consult_reversed (maps : list ZodErrorMap) :
  fold_left (consult behaviour fullIssue d) (rev maps) ("", []) =
  (resolve behaviour fullIssue d maps, calls_of behaviour fullIssue d maps).
Proof.
  induction maps as [|m rest IH]; simpl; [reflexivity|].
  rewrite fold_left_app, IH. reflexivity.
Qed.

Lemma calls_of_maps (maps : list ZodErrorMap) :
  map inv_map (calls_of behaviour fullIssue d maps) = rev maps.
Proof.
  induction maps as [|m rest IH]; simpl; [reflexivity|].
  rewrite map_app, IH. reflexivity.
Qed.

Lemma calls_of_arguments (maps : list ZodErrorMap) :
  Forall (fun c => inv_issue c = fullIssue /\ data (inv_ctx c) = d)
    (calls_of behaviour fullIssue d maps).
Proof.
  induction maps as [|m rest IH]; simpl; [constructor|].
  apply Forall_app. split; [assumption|]. repeat constructor.
Qed.

Lemma final_message_calls_of (maps : list ZodErrorMap) :
  final_message behaviour "" (calls_of behaviour fullIssue d maps) =
  resolve behaviour fullIssue d maps.
Proof.
  destruct maps as [|m rest]; simpl; [reflexivity|].
  unfold final_message. rewrite fold_left_app. reflexivity.
Qed.

Lemma chained_snoc (calls : list Invocation) (c : Invocation) :
  forall prev,
    chained behaviour prev calls ->
    defaultError (inv_ctx c) = final_message behaviour prev calls ->
    chained behaviour prev (calls ++ [c]).
Proof.
  induction calls as [|c0 rest IH]; intros prev Hch Hd; simpl in *.
  - auto.
  - destruct Hch as [H0 Hrest]. split; [assumption|]. now apply IH.
Qed.

Lemma chained_calls_of (maps : list ZodErrorMap) :
  chained behaviour "" (calls_of behaviour fullIssue d maps).
Proof.
  induction maps as [|m rest IH]; simpl; [exact I|].
  apply chained_snoc; [assumption|].
  simpl. symmetry. apply final_message_calls_of.
Qed.

End Resolution.

Lemma makeIssue_without_message (params : MakeIssueParams) :
  message (issueData params) = None ->
  makeIssue behaviour params =
  (issue_of (issueData params)
     (params_path params ++ path_or_empty (issueData params))
     (resolve behaviour (full_issue params) (params_data params)
        (present (errorMaps params))),
   calls_of behaviour (full_issue params) (params_data params)
     (present (errorMaps params))).
Proof.
  intros Hm. unfold makeIssue. rewrite Hm.
  pose proof (consult_reversed (full_issue params) (params_data params)
                (present (errorMaps params))) as H.
  unfold full_issue in H at 1. rewrite Hm in H. rewrite H.
  reflexivity.
Qed.

(** C5. Without a message in [issueData], [makeIssue] calls the present
    error maps in the reverse of the supplied order, each with the issue
    carrying the full path and the input data, each receiving as
    [defaultError] the message returned by the call before it (the empty
    string for the first), and the issue's message is the one returned by
    the last call, which is the call of the first present map. *)
Theorem makeIssue_resolves_in_reverse (params : MakeIssueParams) :
  message (issueData params) = None ->
  let maps := present (errorMaps params) in
  let issue := fst (makeIssue behaviour params) in
  let calls := snd (makeIssue behaviour params) in
  map inv_map calls = rev maps
  /\ Forall (fun c => inv_issue c = full_issue params
                      /\ data (inv_ctx c) = params_data params) calls
  /\ chained behaviour "" calls
  /\ issue_message issue = final_message behaviour "" calls
  /\ (forall first others,
        maps = first :: others ->
        exists earlier inherited,
          map inv_map earlier = rev others
          /\ inherited = final_message behaviour "" earlier
          /\ calls = earlier ++
               [{| inv_map := first; inv_issue := full_issue params;
                   inv_ctx := {| data := params_data params;
                                 defaultError := inherited |} |}]
          /\ issue_message issue =
               behaviour first (full_issue params)
                 {| data := params_data params; defaultError := inherited |}).
Proof.
  intros Hm maps issue calls. subst issue calls.
  rewrite (makeIssue_without_message params Hm). simpl. fold maps.
  repeat split.
  - apply calls_of_maps.
  - apply calls_of_arguments.
  - apply chained_calls_of.
  - symmetry. apply final_message_calls_of.
  - intros first others ->.
    exists (calls_of behaviour (full_issue params) (params_data params) others).
    exists (resolve behaviour (full_issue params) (params_data params) others).
    repeat split.
    + apply calls_of_maps.
    + symmetry. apply final_message_calls_of.
Qed.

(** C6. With a message in [issueData], [makeIssue] returns the issue with
    that very message (and the full path), and calls no error map. *)
Theorem makeIssue_explicit_message (params : MakeIssueParams) (m : string) :
  message (issueData params) = Some m ->
  fst (makeIssue behaviour params) =
    issue_of (issueData params)
      (params_path params ++ path_or_empty (issueData params)) m
  /\ issue_message (fst (makeIssue behaviour params)) = m
  /\ snd (makeIssue behaviour params) = [].
Proof.
  intros Hm. unfold makeIssue. rewrite Hm. simpl. auto.
Qed.

(** The calls [makeIssue] makes, by map. *)
Lemma makeIssue_called_maps (params : MakeIssueParams) :
  map inv_map (snd (makeIssue behaviour params)) =
  match message (issueData params) with
  | Some _ => []
  | None => rev (present (errorMaps params))
  end.
Proof.
  destruct (message (issueData params)) as [m|] eqn:Hm.
  - unfold makeIssue. now rewrite Hm.
  - rewrite (makeIssue_without_message params Hm). apply calls_of_maps.
Qed.

(** ** addIssueToContext *)

(** C7, as amended.  [addIssueToContext] hands [makeIssue] the present maps
    among [contextual map; schema map; override map; default map], where the
    fourth entry is left out exactly when the override map is the default
    map, so that the two global entries never name one function twice (a
    contextual or schema map that is also another entry is called once per
    entry); the issue made from the context's data and path is pushed to
    [ctx.common.issues], and nothing else changes. *)
Theorem addIssueToContext_chain (w : World) (ctx : ParseContext) (d : IssueData) :
  let chain := present (priority_chain defaultErrorMap w ctx) in
  let made :=
    makeIssue behaviour
      {| issueData := d; params_data := ctx_data ctx;
         params_path := ctx_path ctx; errorMaps := map Some chain |} in
  let after := addIssueToContext behaviour defaultErrorMap w ctx d in
  chain =
    present [contextualErrorMap (common ctx); schemaErrorMap ctx]
    ++ global_maps defaultErrorMap w
  /\ (nth 3 (priority_chain defaultErrorMap w ctx) None = None
       <-> getErrorMap w = defaultErrorMap)
  /\ NoDup (global_maps defaultErrorMap w)
  /\ In (getErrorMap w) (global_maps defaultErrorMap w)
  /\ In defaultErrorMap (global_maps defaultErrorMap w)
  /\ arrays (fst after) (issues (common ctx)) =
       arrays w (issues (common ctx)) ++ [fst made]
  /\ (forall a, a <> issues (common ctx) -> arrays (fst after) a = arrays w a)
  /\ getErrorMap (fst after) = getErrorMap w
  /\ snd after = snd made
  /\ map inv_map (snd after) =
       match message d with
       | Some _ => []
       | None => rev chain
       end.
Proof.
  intros chain made after.
  assert (Hafter : after = (push (issues (common ctx)) (fst made) w, snd made)).
  { subst after made chain. unfold addIssueToContext.
    destruct (makeIssue _ _) as [issue calls]. reflexivity. }
  assert (Hchain : chain =
    present [contextualErrorMap (common ctx); schemaErrorMap ctx]
    ++ global_maps defaultErrorMap w).
  { subst chain. unfold priority_chain, global_maps.
    change [contextualErrorMap (common ctx); schemaErrorMap ctx;
            Some (getErrorMap w);
            if Nat.eqb (getErrorMap w) defaultErrorMap
            then None else Some defaultErrorMap]
      with ([contextualErrorMap (common ctx); schemaErrorMap ctx]
            ++ [Some (getErrorMap w);
                if Nat.eqb (getErrorMap w) defaultErrorMap
                then None else Some defaultErrorMap]).
    rewrite present_app. f_equal.
    destruct (Nat.eqb (getErrorMap w) defaultErrorMap); reflexivity. }
  rewrite Hafter. simpl.
  split; [exact Hchain|].
  split.
  { destruct (Nat.eqb (getErrorMap w) defaultErrorMap) eqn:E.
    - apply Nat.eqb_eq in E. tauto.
    - apply Nat.eqb_neq in E. split; [discriminate|contradiction]. }
  unfold global_maps.
  destruct (Nat.eqb (getErrorMap w) defaultErrorMap) eqn:E.
  - apply Nat.eqb_eq in E.
    repeat split.
    + repeat constructor. intros [].
    + now left.
    + left. assumption.
    + now rewrite Nat.eqb_refl.
    + intros a Ha. apply Nat.eqb_neq in Ha. now rewrite Ha.
    + subst made. rewrite makeIssue_called_maps. simpl.
      now rewrite present_map_Some.
  - apply Nat.eqb_neq in E.
    repeat split.
    + repeat constructor; simpl; intuition.
    + now left.
    + right. now left.
    + now rewrite Nat.eqb_refl.
    + intros a Ha. apply Nat.eqb_neq in Ha. now rewrite Ha.
    + subst made. rewrite makeIssue_called_maps. simpl.
      now rewrite present_map_Some.
Qed.

End ErrorMapProperties.

Lemma makeIssue_resolves_in_reverse_witness :
  map inv_map
    (snd (makeIssue example_behaviour (example_params [Some 1; None; Some 2; Some 3] None)))
  = [3; 2; 1]
  /\ issue_message
       (fst (makeIssue example_behaviour (example_params [Some 1; None; Some 2; Some 3] None)))
     = "override"
  /\ issue_message
       (fst (makeIssue example_behaviour (example_params [None; Some 2; Some 3] None)))
     = "Invalid input (schema)".
Proof.
  destruct (makeIssue_resolves_in_reverse example_behaviour
              (example_params [Some 1; None; Some 2; Some 3] None) eq_refl)
    as (Hmaps & _ & _ & Hmsg & _).
  destruct (makeIssue_resolves_in_reverse example_behaviour
              (example_params [None; Some 2; Some 3] None) eq_refl)
    as (_ & _ & _ & Hmsg' & _).
  split; [exact Hmaps|]. split; [exact Hmsg | exact Hmsg'].
Defined.

Lemma makeIssue_explicit_message_witness :
  fst (makeIssue example_behaviour (example_params [Some 1; Some 2] (Some "custom")))
  = {| issue_code := "invalid_type";
       issue_payload := [("expected", JString "string"); ("received", JString "number")];
       issue_path := [PathString "a"; PathNumber 0; PathString "b"];
       issue_message := "custom" |}
  /\ snd (makeIssue example_behaviour (example_params [Some 1; Some 2] (Some "custom")))
     = [].
Proof.
  destruct (makeIssue_explicit_message example_behaviour
              (example_params [Some 1; Some 2] (Some "custom")) "custom" eq_refl)
    as (Hissue & _ & Hcalls).
  split; [exact Hissue | exact Hcalls].
Defined.

(** With the default map (here map 3) still installed as the override, an
    issue raised without contextual or schema map calls it once. *)
Example addIssueToContext_default_called_once :
  let ctx := {| common := {| issues := 0; contextualErrorMap := None; async := false |};
                ctx_path := [PathString "name"]; schemaErrorMap := None;
                parent := None; ctx_data := JNumber 123; parsedType := "number" |} in
  let after :=
    addIssueToContext example_behaviour 3 (initial_world 3) ctx
      {| code := "invalid_type"; payload := []; path := None; message := None |} in
  map inv_map (snd after) = [3]
  /\ arrays (fst after) 0 =
     [{| issue_code := "invalid_type"; issue_payload := [];
         issue_path := [PathString "name"]; issue_message := "Invalid input" |}].
Proof. split; reflexivity. Qed.

(** C7 as stated fails: a contextual map that is also the installed default
    map is called twice for one issue. *)
Lemma addIssueToContext_called_twice_counterexample :
  ~ (forall (behaviour : ZodErrorMap -> IssueData -> ErrorMapCtx -> string)
            (defaultErrorMap : ZodErrorMap) (w : World) (ctx : ParseContext)
            (d : IssueData),
       NoDup (map inv_map (snd (addIssueToContext behaviour defaultErrorMap w ctx d)))).
Proof.
  intros H.
  specialize (H example_behaviour 3 (initial_world 3)
    {| common := {| issues := 0; contextualErrorMap := Some 3; async := false |};
       ctx_path := []; schemaErrorMap := None; parent := None;
       ctx_data := JNull; parsedType := "null" |}
    {| code := "custom"; payload := []; path := None; message := None |}).
  change (NoDup [3; 3]) in H.
  inversion H as [|x l Hnotin Hrest]; subst. apply Hnotin. now left.
Qed.

(** ** The error map registry *)

Lemma getErrorMap_initial (defaultErrorMap : ZodErrorMap) :
  getErrorMap (initial_world defaultErrorMap) = defaultErrorMap.
Proof. reflexivity. Qed.

Lemma getErrorMap_setErrorMap (map : ZodErrorMap) (w : World) :
  getErrorMap (setErrorMap map w) = map.
Proof. reflexivity. Qed.

(** ** mergeObjectAsync *)

(** C8. When every key and value is a result or a promise fulfilled with one,
    [mergeObjectAsync] awaits key then value, pair after pair in the given
    order, and its promise resolves to what [mergeObjectSync] returns, with
    the same effect on the status object, on the pairs [{ key, value }] of the
    awaited results. *)
Theorem mergeObjectAsync_delegates (st : ParseStatus.t) (pairs : list AsyncPair)
    (resolved : list ObjectPair) :
  resolve_pairs pairs = Some resolved ->
  run (ParseStatus.mergeObjectAsync st pairs) =
  (await_order pairs, Resolved (ParseStatus.mergeObjectSync st resolved)).
Proof.
  intros Hres. unfold ParseStatus.mergeObjectAsync.
  now rewrite (run_mergeObjectAsync_loop pairs st [] resolved Hres).
Qed.

Lemma mergeObjectAsync_delegates_witness :
  run (ParseStatus.mergeObjectAsync ParseStatus.new async_pairs_example) =
  ([AwaitedSync; AwaitedPromise 7; AwaitedPromise 8; AwaitedSync],
   Resolved (ParseStatus.mk Dirty,
             DIRTY (JObject [("a", JNumber 1); ("b", JNumber 2)]))).
Proof.
  exact (mergeObjectAsync_delegates ParseStatus.new async_pairs_example
           [ {| key := OK (KString "a"); val := DIRTY (JNumber 1); alwaysSet := None |};
             {| key := OK (KString "b"); val := OK (JNumber 2); alwaysSet := None |} ]
           eq_refl).
Defined.

(** A rejected operand rejects the merge before [mergeObjectSync] is reached;
    the operands after it are not awaited. *)
Example mergeObjectAsync_rejection :
  run (ParseStatus.mergeObjectAsync ParseStatus.new
         [ {| akey := Sync (DIRTY (KString "a"));
              aval := Async 7 (Rejected (JString "boom")) |};
           {| akey := Async 8 (Fulfilled (OK (KString "b")));
              aval := Sync (OK (JNumber 2)) |} ]) =
  ([AwaitedSync; AwaitedPromise 7], RejectedWith (JString "boom")).
Proof. reflexivity. Qed.

(** ** Predicates *)

(** C9, as amended.  [isDirty] holds exactly of a result whose status is
    dirty: it holds of [DIRTY(v)] and fails of [OK(v)], of [INVALID] and of a
    promise. *)
Theorem isDirty_only_dirty (T : Type) :
  (forall x : ParseReturnType T,
     isDirty x = true <-> exists r, x = Sync r /\ status r = Dirty)
  /\ (forall v : T, isDirty (Sync (DIRTY v)) = true)
  /\ (forall v : T, isDirty (Sync (OK v)) = false)
  /\ isDirty (Sync (@INVALID T)) = false.
Proof.
  repeat split.
  - destruct x as [r|pid s]; simpl; [|discriminate].
    unfold isDirty. simpl. intros H. apply StatusTag_eqb_eq in H. eauto.
  - intros [r [-> Hr]]. unfold isDirty. simpl. now apply StatusTag_eqb_eq.
Qed.

(** C9 as stated fails: [isDirty(OK(undefined))] is false. *)
Lemma isDirty_ok_counterexample :
  ~ (forall v : JsValue,
       isDirty (Sync (OK v)) = true
       /\ isDirty (Sync (DIRTY v)) = true
       /\ isDirty (Sync (@INVALID JsValue)) = false).
Proof.
  intros H. destruct (H JUndefined) as [Hok _]. discriminate Hok.
Qed.


(** * Further properties of the code *)

(** ** dirty and abort *)

(** X1. [abort()] always leaves the status aborted and [dirty()] never leaves
    it valid; each is idempotent, they commute, and [abort()] absorbs
    [dirty()]. *)
Theorem dirty_abort_compose (st : ParseStatus.t) :
  ParseStatus.value (ParseStatus.abort st) = Aborted
  /\ ParseStatus.value (ParseStatus.dirty st) <> Valid
  /\ ParseStatus.abort (ParseStatus.abort st) = ParseStatus.abort st
  /\ ParseStatus.dirty (ParseStatus.dirty st) = ParseStatus.dirty st
  /\ ParseStatus.dirty (ParseStatus.abort st) = ParseStatus.abort st
  /\ ParseStatus.abort (ParseStatus.dirty st) = ParseStatus.abort st.
Proof.
  destruct st as [[]]; simpl; repeat split; discriminate.
Qed.

(** ** The merges and the status object *)

Lemma mergeArray_loop_marks (results : list (SyncParseReturnType JsValue)) :
  forall st arrayValue,
    fst (ParseStatus.mergeArray_loop st arrayValue results) = st
    \/ fst (ParseStatus.mergeArray_loop st arrayValue results) = ParseStatus.dirty st.
Proof.
  induction results as [|s rest IH]; intros st arrayValue; simpl; [now left|].
  destruct (StatusTag_eqb (status s) Aborted); simpl; [now left|].
  destruct (StatusTag_eqb (status s) Dirty).
  - right. destruct (IH (ParseStatus.dirty st) (arrayValue ++ [read_value s]))
      as [H|H]; rewrite H; auto using dirty_idempotent.
  - apply IH.
Qed.

Lemma mergeObjectSync_loop_marks (pairs : list ObjectPair) :
  forall st finalObject,
    fst (ParseStatus.mergeObjectSync_loop st finalObject pairs) = st
    \/ fst (ParseStatus.mergeObjectSync_loop st finalObject pairs) = ParseStatus.dirty st.
Proof.
  induction pairs as [|p rest IH]; intros st finalObject; simpl; [now left|].
  destruct (StatusTag_eqb (status (key p)) Aborted); simpl; [now left|].
  destruct (StatusTag_eqb (status (val p)) Aborted); simpl; [now left|].
  match goal with
  | |- context [ParseStatus.mergeObjectSync_loop ?s ?o rest] =>
      destruct (IH s o) as [H|H]; rewrite H
  end;
  destruct (StatusTag_eqb (status (key p)) Dirty),
           (StatusTag_eqb (status (val p)) Dirty);
  rewrite ?dirty_idempotent; auto.
Qed.

(** X2. The merges only ever call [dirty()]: after [mergeArray],
    [mergeObjectSync] or [mergeObjectAsync] the status object is as it was or
    as [dirty()] leaves it, also when the merge returned [INVALID] or was
    rejected.  A merge never aborts the status object. *)
Theorem merges_only_mark_dirty (st : ParseStatus.t) :
  (forall results,
     fst (ParseStatus.mergeArray st results) = st
     \/ fst (ParseStatus.mergeArray st results) = ParseStatus.dirty st)
  /\ (forall pairs,
        fst (ParseStatus.mergeObjectSync st pairs) = st
        \/ fst (ParseStatus.mergeObjectSync st pairs) = ParseStatus.dirty st)
  /\ (forall pairs,
        ParseStatus.status_after st pairs = st
        \/ ParseStatus.status_after st pairs = ParseStatus.dirty st).
Proof.
  repeat split.
  - intros results. apply mergeArray_loop_marks.
  - intros pairs. apply mergeObjectSync_loop_marks.
  - intros pairs. unfold ParseStatus.status_after, ParseStatus.mergeObjectAsync.
    pose proof (mergeObjectAsync_settles pairs st []) as H.
    destruct (snd _) as [[st' r]|e]; [|now left].
    destruct H as [synced H].
    replace st' with (fst (ParseStatus.mergeObjectSync st synced))
      by now rewrite <- H.
    apply mergeObjectSync_loop_marks.
Qed.

(** ** mergeArray *)

Lemma mergeArray_loop_invalid_iff (results : list (SyncParseReturnType JsValue)) :
  forall st arrayValue,
    snd (ParseStatus.mergeArray_loop st arrayValue results) = INVALID
    <-> Exists (fun s => status s = Aborted) results.
Proof.
  induction results as [|s rest IH]; intros st arrayValue; simpl.
  - split; [discriminate|]. intros H. inversion H.
  - destruct (StatusTag_eqb (status s) Aborted) eqn:E; simpl.
    + apply StatusTag_eqb_eq in E. split; auto.
    + apply StatusTag_eqb_neq in E. rewrite IH. split.
      * intros H. now apply Exists_cons_tl.
      * intros H. inversion H; subst; [contradiction|assumption].
Qed.

Lemma mergeArray_loop_status (results : list (SyncParseReturnType JsValue)) :
  forall st arrayValue,
    snd (ParseStatus.mergeArray_loop st arrayValue results) = INVALID
    \/ status (snd (ParseStatus.mergeArray_loop st arrayValue results))
       = ParseStatus.value (fst (ParseStatus.mergeArray_loop st arrayValue results)).
Proof.
  induction results as [|s rest IH]; intros st arrayValue; simpl; [now right|].
  destruct (StatusTag_eqb (status s) Aborted); simpl; [now left|]. apply IH.
Qed.

(** X3. [mergeArray] returns [INVALID] exactly when some element is aborted;
    otherwise the status of what it returns is the value the status object
    has after the call. *)
Theorem mergeArray_invalid_iff (st : ParseStatus.t)
    (results : list (SyncParseReturnType JsValue)) :
  (snd (ParseStatus.mergeArray st results) = INVALID
   <-> Exists (fun s => status s = Aborted) results)
  /\ (snd (ParseStatus.mergeArray st results) = INVALID
      \/ status (snd (ParseStatus.mergeArray st results))
         = ParseStatus.value (fst (ParseStatus.mergeArray st results))).
Proof.
  split; [apply mergeArray_loop_invalid_iff | apply mergeArray_loop_status].
Qed.

(** X4. On a sequence without aborted elements, the empty one included,
    [mergeArray] returns every element value in input order, as many as there
    are elements; it calls [dirty()] exactly when some element is dirty and
    reports the value the status object then has. *)
Theorem mergeArray_without_aborted (st : ParseStatus.t)
    (results : list (SyncParseReturnType JsValue)) :
  no_aborted results ->
  let st' := dirty_when (existsb result_dirty results) st in
  ParseStatus.mergeArray st results =
    (st', {| status := ParseStatus.value st';
             value := Some (JArray (map read_value results)) |})
  /\ List.length (map read_value results) = List.length results
  /\ ParseStatus.mergeArray st [] =
       (st, {| status := ParseStatus.value st; value := Some (JArray []) |}).
Proof.
  intros Hclean st'. repeat split.
  - unfold ParseStatus.mergeArray. rewrite <- (app_nil_r results) at 1.
    rewrite mergeArray_loop_prefix by now apply no_aborted_forallb.
    reflexivity.
  - apply List.length_map.
Qed.

Lemma mergeArray_without_aborted_witness :
  ParseStatus.mergeArray (ParseStatus.mk Aborted)
    [OK (JNumber 1); OK JUndefined; DIRTY (JString "x")] =
  (ParseStatus.mk Aborted,
   {| status := Aborted;
      value := Some (JArray [JNumber 1; JUndefined; JString "x"]) |}).
Proof.
  refine (proj1 (mergeArray_without_aborted (ParseStatus.mk Aborted)
                   [OK (JNumber 1); OK JUndefined; DIRTY (JString "x")] _)).
  repeat constructor; discriminate.
Defined.

(** X5. [mergeArray] stops at the first aborted element: the elements after
    it have no effect, so only the dirty elements before it mark the
    status. *)
Theorem mergeArray_stops_at_first_aborted (st : ParseStatus.t)
    (pre post : list (SyncParseReturnType JsValue)) (a : SyncParseReturnType JsValue) :
  no_aborted pre ->
  status a = Aborted ->
  ParseStatus.mergeArray st (pre ++ a :: post) =
  (dirty_when (existsb result_dirty pre) st, INVALID).
Proof.
  intros Hclean Ha. unfold ParseStatus.mergeArray.
  rewrite mergeArray_loop_prefix by now apply no_aborted_forallb.
  simpl. now rewrite Ha.
Qed.

Lemma mergeArray_stops_at_first_aborted_witness :
  ParseStatus.mergeArray ParseStatus.new
    ([OK (JNumber 1)] ++ INVALID :: [DIRTY (JNumber 2); DIRTY (JNumber 3)]) =
  (ParseStatus.mk Valid, INVALID).
Proof.
  apply (mergeArray_stops_at_first_aborted ParseStatus.new [OK (JNumber 1)]).
  - repeat constructor; discriminate.
  - reflexivity.
Defined.

(** ** mergeObjectSync *)

Lemma mergeObjectSync_loop_invalid_iff (pairs : list ObjectPair) :
  forall st finalObject,
    snd (ParseStatus.mergeObjectSync_loop st finalObject pairs) = INVALID
    <-> Exists pair_has_aborted pairs.
Proof.
  induction pairs as [|p rest IH]; intros st finalObject; simpl.
  - split; [discriminate|]. intros H. inversion H.
  - destruct (StatusTag_eqb (status (key p)) Aborted) eqn:Ek; simpl.
    { apply StatusTag_eqb_eq in Ek. split; [|reflexivity].
      intros _. apply Exists_cons_hd. now left. }
    destruct (StatusTag_eqb (status (val p)) Aborted) eqn:Ev; simpl.
    { apply StatusTag_eqb_eq in Ev. split; [|reflexivity].
      intros _. apply Exists_cons_hd. now right. }
    apply StatusTag_eqb_neq in Ek, Ev. rewrite IH. split.
    + intros H. now apply Exists_cons_tl.
    + intros H. inversion H as [? ? [Hp|Hp]|]; subst;
        [contradiction|contradiction|assumption].
Qed.

Lemma mergeObjectSync_loop_status (pairs : list ObjectPair) :
  forall st finalObject,
    snd (ParseStatus.mergeObjectSync_loop st finalObject pairs) = INVALID
    \/ status (snd (ParseStatus.mergeObjectSync_loop st finalObject pairs))
       = ParseStatus.value (fst (ParseStatus.mergeObjectSync_loop st finalObject pairs)).
Proof.
  induction pairs as [|p rest IH]; intros st finalObject; simpl; [now right|].
  destruct (StatusTag_eqb (status (key p)) Aborted); simpl; [now left|].
  destruct (StatusTag_eqb (status (val p)) Aborted); simpl; [now left|].
  apply IH.
Qed.

(** X6. [mergeObjectSync] returns [INVALID] exactly when some pair has an
    aborted key or an aborted value; otherwise the status of what it returns
    is the value the status object has after the call. *)
Theorem mergeObjectSync_invalid_iff (st : ParseStatus.t) (pairs : list ObjectPair) :
  (snd (ParseStatus.mergeObjectSync st pairs) = INVALID
   <-> Exists pair_has_aborted pairs)
  /\ (snd (ParseStatus.mergeObjectSync st pairs) = INVALID
      \/ status (snd (ParseStatus.mergeObjectSync st pairs))
         = ParseStatus.value (fst (ParseStatus.mergeObjectSync st pairs))).
Proof.
  split; [apply mergeObjectSync_loop_invalid_iff | apply mergeObjectSync_loop_status].
Qed.

(** X7. [mergeObjectSync] stops at the first pair with an aborted key or
    value: that pair's own dirty key, if any, and all the pairs after it have
    no effect on the status object. *)
Theorem mergeObjectSync_stops_at_first_aborted (st : ParseStatus.t)
    (pre post : list ObjectPair) (p : ObjectPair) :
  Forall (fun q => ~ pair_has_aborted q) pre ->
  pair_has_aborted p ->
  ParseStatus.mergeObjectSync st (pre ++ p :: post) =
  (dirty_when (existsb pair_dirty pre) st, INVALID).
Proof.
  intros Hclean Hp. unfold ParseStatus.mergeObjectSync.
  rewrite mergeObjectSync_loop_prefix by now apply pair_clean_forallb.
  simpl. destruct Hp as [Hp|Hp]; rewrite Hp; simpl; [reflexivity|].
  destruct (StatusTag_eqb (status (key p)) Aborted); reflexivity.
Qed.

Lemma mergeObjectSync_stops_at_first_aborted_witness :
  ParseStatus.mergeObjectSync ParseStatus.new
    ([{| key := OK (KString "a"); val := OK (JNumber 1); alwaysSet := None |}]
     ++ {| key := DIRTY (KString "b"); val := INVALID; alwaysSet := None |}
     :: [{| key := OK (KString "c"); val := DIRTY JNull; alwaysSet := None |}]) =
  (ParseStatus.mk Valid, INVALID).
Proof.
  apply (mergeObjectSync_stops_at_first_aborted ParseStatus.new
           [{| key := OK (KString "a"); val := OK (JNumber 1); alwaysSet := None |}]).
  - repeat constructor. intros [H|H]; discriminate H.
  - right. reflexivity.
Defined.

Lemma mergeObjectSync_loop_value (pairs : list ObjectPair) :
  forall st finalObject out,
    value (snd (ParseStatus.mergeObjectSync_loop st finalObject pairs))
      = Some (JObject out) ->
    out = fold_left ParseStatus.assign (filter ParseStatus.contributes pairs)
            finalObject.
Proof.
  induction pairs as [|p rest IH]; intros st finalObject out; simpl.
  - now intros [= <-].
  - destruct (StatusTag_eqb (status (key p)) Aborted); simpl; [discriminate|].
    destruct (StatusTag_eqb (status (val p)) Aborted); simpl; [discriminate|].
    intros H. apply IH in H. destruct (ParseStatus.contributes p); exact H.
Qed.

Lemma last_written_origin (name : string) (pairs : list ObjectPair) :
  forall before v,
    last_written name pairs before = Some v ->
    before = Some v
    \/ exists p, In p pairs /\ writes name p = true /\ v = read_value (val p).
Proof.
  unfold last_written.
  induction pairs as [|p rest IH]; intros before v H; simpl in H; [now left|].
  apply IH in H as [H|[q [Hin [Hw Hv]]]].
  - destruct (writes name p) eqn:E; [|now left].
    right. exists p. injection H as <-. simpl. auto.
  - right. exists q. simpl. auto.
Qed.

(** X8. Every own property of the object [mergeObjectSync] returns was
    written by one of the pairs: it carries that pair's value under that
    pair's key, the key is not the string ["__proto__"], and the value is
    defined unless the pair is flagged [alwaysSet]. *)
Theorem mergeObjectSync_properties_come_from_pairs (st : ParseStatus.t)
    (pairs : list ObjectPair) (out : JsObject) (name : string) (v : JsValue) :
  value (snd (ParseStatus.mergeObjectSync st pairs)) = Some (JObject out) ->
  get_own out name = Some v ->
  exists p,
    In p pairs
    /\ property_name p = name
    /\ read_value (val p) = v
    /\ key_value (key p) <> Some (KString "__proto__")
    /\ (is_defined v = true \/ alwaysSet p = Some true).
Proof.
  intros Hout Hget. apply mergeObjectSync_loop_value in Hout. subst out.
  rewrite get_own_merged in Hget.
  apply last_written_origin in Hget as [Hget|[p [Hin [Hw Hv]]]]; [discriminate|].
  exists p. unfold writes in Hw. apply andb_true_iff in Hw as [Hc Hn].
  apply String.eqb_eq in Hn. unfold ParseStatus.contributes in Hc.
  apply andb_true_iff in Hc as [Hproto Hdef].
  repeat split; auto.
  - intros E. rewrite E in Hproto. discriminate Hproto.
  - rewrite <- Hv in Hdef. apply orb_true_iff in Hdef as [Hd|Hd]; [now left|].
    right. destruct (alwaysSet p) as [[]|]; simpl in Hd; congruence.
Qed.

Lemma mergeObjectSync_properties_come_from_pairs_witness :
  exists p,
    In p object_pairs_example
    /\ property_name p = "c"
    /\ read_value (val p) = JUndefined
    /\ key_value (key p) <> Some (KString "__proto__")
    /\ (is_defined JUndefined = true \/ alwaysSet p = Some true).
Proof.
  apply (mergeObjectSync_properties_come_from_pairs ParseStatus.new
           object_pairs_example
           [("a", JNumber 3); ("c", JUndefined); ("1", JNumber 2)]);
    reflexivity.
Defined.

Lemma set_own_names (o : JsObject) (name : string) (v : JsValue) :
  own_names (set_own o name v) =
  if existsb (String.eqb name) (own_names o)
  then own_names o
  else own_names o ++ [name].
Proof.
  unfold own_names.
  induction o as [|[n w] rest IH]; simpl; [reflexivity|].
  rewrite (String.eqb_sym name n).
  destruct (String.eqb n name) eqn:E; simpl; [reflexivity|].
  rewrite IH.
  destruct (existsb (String.eqb name) (map fst rest)); reflexivity.
Qed.


Lemma set_own_NoDup (o : JsObject) (name : string) (v : JsValue) :
  NoDup (own_names o) -> NoDup (own_names (set_own o name v)).
Proof.
  intros Hnd. rewrite set_own_names.
  destruct (existsb (String.eqb name) (own_names o)) eqn:E; [assumption|].
  apply NoDup_app; [assumption| |].
  - repeat constructor. intros [].
  - intros x Hx [Heq|[]]. subst x.
    assert (Ht : existsb (String.eqb name) (own_names o) = true).
    { apply existsb_exists. exists name. split; [assumption|apply String.eqb_refl]. }
    congruence.
Qed.

Lemma merged_NoDup (written : list ObjectPair) :
  forall o,
    NoDup (own_names o) ->
    NoDup (own_names (fold_left ParseStatus.assign written o)).
Proof.
  induction written as [|p rest IH]; intros o Hnd; simpl; [assumption|].
  apply IH. unfold ParseStatus.assign. now apply set_own_NoDup.
Qed.

(** X9. The object [mergeObjectSync] returns has every property name once,
    however many pairs were written under it. *)
Theorem mergeObjectSync_names_unique (st : ParseStatus.t) (pairs : list ObjectPair)
    (out : JsObject) :
  value (snd (ParseStatus.mergeObjectSync st pairs)) = Some (JObject out) ->
  NoDup (own_names out).
Proof.
  intros Hout. apply mergeObjectSync_loop_value in Hout. subst out.
  apply merged_NoDup. constructor.
Qed.

Lemma mergeObjectSync_names_unique_witness :
  NoDup (own_names [("a", JNumber 3); ("c", JUndefined); ("1", JNumber 2)]).
Proof.
  apply (mergeObjectSync_names_unique ParseStatus.new object_pairs_example).
  reflexivity.
Defined.




(** ** mergeObjectAsync *)

Lemma run_mergeObjectAsync_loop_rejects (pre : list AsyncPair) :
  forall st syncPairs resolved p post evs e,
    resolve_pairs pre = Some resolved ->
    pair_rejection p = Some (evs, e) ->
    run (ParseStatus.mergeObjectAsync_loop st syncPairs (pre ++ p :: post)) =
    (await_order pre ++ evs, RejectedWith e).
Proof.
  induction pre as [|q rest IH]; intros st syncPairs resolved p post evs e Hres Hrej.
  - simpl. unfold pair_rejection in Hrej.
    destruct (settle (akey p)) as [k|ek].
    + destruct (settle (aval p)) as [v|ev]; [discriminate|].
      injection Hrej as <- <-. reflexivity.
    + injection Hrej as <- <-. reflexivity.
  - simpl in Hres. unfold resolve_pair in Hres. simpl.
    destruct (settle (akey q)) as [k|]; [|discriminate].
    destruct (settle (aval q)) as [v|]; [|discriminate].
    destruct (resolve_pairs rest) as [qs|]; [|discriminate].
    rewrite (IH st _ qs p post evs e eq_refl Hrej). reflexivity.
Qed.

(** X11. When an operand is a rejected promise, [mergeObjectAsync] rejects
    with the reason of the first one in await order, awaits nothing after it
    (not even the value of a pair whose key rejects), never reaches
    [mergeObjectSync], and leaves the status object untouched whatever the
    earlier pairs hold. *)
Theorem mergeObjectAsync_first_rejection (st : ParseStatus.t)
    (pre post : list AsyncPair) (p : AsyncPair) (resolved : list ObjectPair)
    (evs : list AwaitEvent) (e : JsValue) :
  resolve_pairs pre = Some resolved ->
  pair_rejection p = Some (evs, e) ->
  run (ParseStatus.mergeObjectAsync st (pre ++ p :: post)) =
    (await_order pre ++ evs, RejectedWith e)
  /\ ParseStatus.status_after st (pre ++ p :: post) = st.
Proof.
  intros Hres Hrej.
  assert (Hrun : run (ParseStatus.mergeObjectAsync st (pre ++ p :: post)) =
                 (await_order pre ++ evs, RejectedWith e))
    by (apply (run_mergeObjectAsync_loop_rejects pre st [] resolved); assumption).
  split; [exact Hrun|].
  unfold ParseStatus.status_after. now rewrite Hrun.
Qed.

Lemma mergeObjectAsync_first_rejection_witness :
  run (ParseStatus.mergeObjectAsync ParseStatus.new
         ([{| akey := Sync (DIRTY (KString "a")); aval := Async 1 (Fulfilled INVALID) |}]
          ++ {| akey := Async 2 (Rejected (JString "boom")); aval := Async 3 (Rejected JNull) |}
          :: [{| akey := Async 4 (Rejected JNull); aval := Sync INVALID |}])) =
    ([AwaitedSync; AwaitedPromise 1; AwaitedPromise 2], RejectedWith (JString "boom"))
  /\ ParseStatus.status_after ParseStatus.new
       ([{| akey := Sync (DIRTY (KString "a")); aval := Async 1 (Fulfilled INVALID) |}]
        ++ {| akey := Async 2 (Rejected (JString "boom")); aval := Async 3 (Rejected JNull) |}
        :: [{| akey := Async 4 (Rejected JNull); aval := Sync INVALID |}])
     = ParseStatus.new.
Proof.
  apply (mergeObjectAsync_first_rejection ParseStatus.new
           [{| akey := Sync (DIRTY (KString "a")); aval := Async 1 (Fulfilled INVALID) |}]
           [{| akey := Async 4 (Rejected JNull); aval := Sync INVALID |}]
           {| akey := Async 2 (Rejected (JString "boom")); aval := Async 3 (Rejected JNull) |}
           [{| key := DIRTY (KString "a"); val := INVALID; alwaysSet := None |}]);
    reflexivity.
Defined.

Lemma mergeObjectAsync_loop_resolved (pairs : list AsyncPair) :
  forall st syncPairs out,
    snd (run (ParseStatus.mergeObjectAsync_loop st syncPairs pairs)) = Resolved out ->
    exists awaited,
      out = ParseStatus.mergeObjectSync st (syncPairs ++ awaited)
      /\ Forall (fun q => alwaysSet q = None) awaited
      /\ Forall (fun p => pair_rejection p = None) pairs.
Proof.
  induction pairs as [|p rest IH]; intros st syncPairs out; simpl.
  - intros [= <-]. exists []. rewrite app_nil_r. repeat constructor.
  - destruct (settle (akey p)) as [k|] eqn:Ek; simpl; [|discriminate].
    destruct (settle (aval p)) as [v|] eqn:Ev; simpl; [|discriminate].
    destruct (run _) as [evs o] eqn:E. simpl. intros ->.
    destruct (IH st _ out (f_equal snd E)) as [awaited [Hout [Hflags Hall]]].
    exists ({| key := k; val := v; alwaysSet := None |} :: awaited).
    rewrite <- app_assoc in Hout. repeat split; auto.
    constructor; [|assumption].
    unfold pair_rejection. now rewrite Ek, Ev.
Qed.

Lemma resolve_pairs_of_no_rejection (pairs : list AsyncPair) :
  Forall (fun p => pair_rejection p = None) pairs ->
  exists resolved, resolve_pairs pairs = Some resolved.
Proof.
  induction pairs as [|p rest IH]; intros H; simpl; [now exists []|].
  inversion H as [|? ? Hp Hrest]; subst.
  destruct (IH Hrest) as [qs Hqs]. rewrite Hqs.
  unfold pair_rejection in Hp. unfold resolve_pair.
  destruct (settle (akey p)); [|discriminate].
  destruct (settle (aval p)); [|discriminate]. eauto.
Qed.

(** X12. The promise of [mergeObjectAsync] resolves exactly when no operand
    is a rejected promise. *)
Theorem mergeObjectAsync_resolves_iff (st : ParseStatus.t) (pairs : list AsyncPair) :
  (exists out, snd (run (ParseStatus.mergeObjectAsync st pairs)) = Resolved out)
  <-> Forall (fun p => pair_rejection p = None) pairs.
Proof.
  split.
  - intros [out Hout].
    destruct (mergeObjectAsync_loop_resolved pairs st [] out Hout)
      as [awaited [_ [_ Hall]]].
    exact Hall.
  - intros Hall. destruct (resolve_pairs_of_no_rejection pairs Hall) as [qs Hqs].
    exists (ParseStatus.mergeObjectSync st qs).
    unfold ParseStatus.mergeObjectAsync.
    now rewrite (run_mergeObjectAsync_loop pairs st [] qs Hqs).
Qed.

(** X13. [mergeObjectAsync] passes no [alwaysSet] flag on, so the object it
    resolves to never holds a property whose value is [undefined]. *)
Theorem mergeObjectAsync_drops_undefined (st st' : ParseStatus.t)
    (pairs : list AsyncPair) (r : SyncParseReturnType JsValue)
    (out : JsObject) (name : string) (v : JsValue) :
  snd (run (ParseStatus.mergeObjectAsync st pairs)) = Resolved (st', r) ->
  value r = Some (JObject out) ->
  get_own out name = Some v ->
  is_defined v = true.
Proof.
  intros Hrun Hout Hget.
  destruct (mergeObjectAsync_loop_resolved pairs st [] _ Hrun)
    as [awaited [Hsync [Hflags _]]].
  simpl in Hsync.
  assert (Hval : value (snd (ParseStatus.mergeObjectSync st awaited))
                 = Some (JObject out)) by now rewrite <- Hsync.
  apply mergeObjectSync_loop_value in Hval. subst out.
  rewrite get_own_merged in Hget.
  apply last_written_origin in Hget as [Hget|[q [Hin [Hw Hv]]]]; [discriminate|].
  unfold writes, ParseStatus.contributes in Hw.
  rewrite (proj1 (Forall_forall _ _) Hflags q Hin) in Hw. simpl in Hw.
  rewrite orb_false_r in Hw. subst v.
  apply andb_true_iff in Hw as [Hw _]. now apply andb_true_iff in Hw as [_ Hw].
Qed.

Lemma mergeObjectAsync_drops_undefined_witness : is_defined (JNumber 2) = true.
Proof.
  apply (mergeObjectAsync_drops_undefined ParseStatus.new (ParseStatus.mk Dirty)
           async_pairs_example
           (DIRTY (JObject [("a", JNumber 1); ("b", JNumber 2)]))
           [("a", JNumber 1); ("b", JNumber 2)] "b"); reflexivity.
Defined.

(** ** makeIssue *)

Section FurtherErrorMapProperties.

Variable behaviour : ZodErrorMap -> IssueData -> ErrorMapCtx -> string.
Variable defaultErrorMap : ZodErrorMap.

(** X14. Whether or not a message is given and whatever the maps answer, the
    issue [makeIssue] returns has the path of the parameters followed by the
    path of the issue data (nothing when it has none), and the code and
    fields of the issue data. *)
Theorem makeIssue_path_and_fields (params : MakeIssueParams) :
  issue_path (fst (makeIssue behaviour params)) =
    params_path params ++ path_or_empty (issueData params)
  /\ (path (issueData params) = None ->
      issue_path (fst (makeIssue behaviour params)) = params_path params)
  /\ issue_code (fst (makeIssue behaviour params)) = code (issueData params)
  /\ issue_payload (fst (makeIssue behaviour params)) = payload (issueData params).
Proof.
  assert (H : exists msg,
    fst (makeIssue behaviour params) =
    issue_of (issueData params)
      (params_path params ++ path_or_empty (issueData params)) msg).
  { unfold makeIssue. destruct (message (issueData params)) as [m|]; simpl.
    - now exists m.
    - destruct (fold_left _ _ _) as [msg calls]. now exists msg. }
  destruct H as [msg ->]. simpl. repeat split.
  intros Hp. unfold path_or_empty. rewrite Hp. apply app_nil_r.
Qed.

(** X15. Without a message and without a present map, [makeIssue] calls
    nothing and the message is the empty string. *)
Theorem makeIssue_no_present_map (params : MakeIssueParams) :
  message (issueData params) = None ->
  present (errorMaps params) = [] ->
  makeIssue behaviour params =
  (issue_of (issueData params)
     (params_path params ++ path_or_empty (issueData params)) "",
   []).
Proof.
  intros Hm Hnone. rewrite (makeIssue_without_message behaviour params Hm).
  now rewrite Hnone.
Qed.

(** X16. When the first present map answers without regard to the context
    it is given, its answer is the message, whatever the maps after it are
    and answer. *)
Theorem makeIssue_first_map_decides (params : MakeIssueParams)
    (first : ZodErrorMap) (others : list ZodErrorMap) (c : ErrorMapCtx) :
  message (issueData params) = None ->
  present (errorMaps params) = first :: others ->
  (forall c1 c2,
     behaviour first (full_issue params) c1 = behaviour first (full_issue params) c2) ->
  issue_message (fst (makeIssue behaviour params)) =
  behaviour first (full_issue params) c.
Proof.
  intros Hm Hmaps Hconst.
  rewrite (makeIssue_without_message behaviour params Hm), Hmaps. simpl.
  apply Hconst.
Qed.

Lemma resolve_passthrough (fullIssue : IssueData) (d : JsValue)
    (m : ZodErrorMap) (before after : list ZodErrorMap) :
  (forall c, behaviour m fullIssue c = defaultError c) ->
  resolve behaviour fullIssue d (before ++ m :: after) =
  resolve behaviour fullIssue d (before ++ after).
Proof.
  intros Hpass. induction before as [|b rest IH]; simpl.
  - now rewrite Hpass.
  - now rewrite IH.
Qed.

(** X17. A map that answers with the [defaultError] it is given is
    transparent: the issue is the one made without it, wherever it stands
    among the maps. *)
Theorem makeIssue_passthrough_map (params : MakeIssueParams)
    (m : ZodErrorMap) (before after : list ZodErrorMap) :
  message (issueData params) = None ->
  (forall c, behaviour m (full_issue params) c = defaultError c) ->
  fst (makeIssue behaviour (with_maps params (map Some (before ++ m :: after)))) =
  fst (makeIssue behaviour (with_maps params (map Some (before ++ after)))).
Proof.
  intros Hm Hpass.
  rewrite !makeIssue_without_message by exact Hm. simpl.
  rewrite !present_map_Some.
  change (full_issue (with_maps params (map Some (before ++ m :: after))))
    with (full_issue params).
  change (full_issue (with_maps params (map Some (before ++ after))))
    with (full_issue params).
  now rewrite resolve_passthrough.
Qed.

End FurtherErrorMapProperties.

Lemma makeIssue_path_and_fields_witness :
  issue_path (fst (makeIssue example_behaviour
    {| params_data := JNull; params_path := [PathString "a"; PathNumber 0];
       errorMaps := [Some 1];
       issueData := {| code := "custom"; payload := []; path := None;
                       message := None |} |}))
  = [PathString "a"; PathNumber 0].
Proof.
  apply (proj1 (proj2 (makeIssue_path_and_fields example_behaviour
    {| params_data := JNull; params_path := [PathString "a"; PathNumber 0];
       errorMaps := [Some 1];
       issueData := {| code := "custom"; payload := []; path := None;
                       message := None |} |}))).
  reflexivity.
Defined.

Lemma makeIssue_no_present_map_witness :
  makeIssue example_behaviour (example_params [None; None] None) =
  ({| issue_code := "invalid_type";
      issue_payload := [("expected", JString "string"); ("received", JString "number")];
      issue_path := [PathString "a"; PathNumber 0; PathString "b"];
      issue_message := "" |}, []).
Proof.
  exact (makeIssue_no_present_map example_behaviour
           (example_params [None; None] None) eq_refl eq_refl).
Defined.

Lemma makeIssue_first_map_decides_witness :
  issue_message
    (fst (makeIssue example_behaviour (example_params [None; Some 1; Some 2; Some 3] None)))
  = "override".
Proof.
  apply (makeIssue_first_map_decides example_behaviour
           (example_params [None; Some 1; Some 2; Some 3] None) 1 [2; 3]
           {| data := JNull; defaultError := "" |});
    reflexivity.
Defined.

Lemma makeIssue_passthrough_map_witness :
  fst (makeIssue fallback_behaviour
         (with_maps (example_params [] None) (map Some ([1] ++ 0 :: [2])))) =
  fst (makeIssue fallback_behaviour
         (with_maps (example_params [] None) (map Some ([1] ++ [2])))).
Proof.
  apply (makeIssue_passthrough_map fallback_behaviour (example_params [] None) 0 [1] [2]);
    reflexivity.
Defined.

(** ** addIssueToContext *)

Section FurtherContextProperties.

Variable behaviour : ZodErrorMap -> IssueData -> ErrorMapCtx -> string.
Variable defaultErrorMap : ZodErrorMap.

Lemma present_priority_chain (w : World) (ctx : ParseContext) :
  present (priority_chain defaultErrorMap w ctx) =
  present [contextualErrorMap (common ctx); schemaErrorMap ctx]
  ++ global_maps defaultErrorMap w.
Proof.
  unfold priority_chain, global_maps.
  destruct (contextualErrorMap (common ctx)), (schemaErrorMap ctx),
    (Nat.eqb (getErrorMap w) defaultErrorMap); reflexivity.
Qed.

Lemma global_maps_end (w : World) :
  exists before, global_maps defaultErrorMap w = before ++ [defaultErrorMap].
Proof.
  unfold global_maps.
  destruct (Nat.eqb (getErrorMap w) defaultErrorMap) eqn:E.
  - apply Nat.eqb_eq in E. exists []. now rewrite E.
  - now exists [getErrorMap w].
Qed.

Lemma calls_of_lowest (fullIssue : IssueData) (d : JsValue) (m : ZodErrorMap)
    (higher : list ZodErrorMap) :
  exists later,
    calls_of behaviour fullIssue d (higher ++ [m]) =
    call_of behaviour fullIssue d m [] :: later.
Proof.
  induction higher as [|h rest [later IH]]; simpl.
  - now exists [].
  - rewrite IH. eexists. reflexivity.
Qed.

Lemma addIssueToContext_without_message (w : World) (ctx : ParseContext)
    (d : IssueData) :
  message d = None ->
  let chain := present [contextualErrorMap (common ctx); schemaErrorMap ctx]
               ++ global_maps defaultErrorMap w in
  addIssueToContext behaviour defaultErrorMap w ctx d =
  (push (issues (common ctx))
     (issue_of d (ctx_path ctx ++ path_or_empty d)
        (resolve behaviour (context_issue ctx d) (ctx_data ctx) chain)) w,
   calls_of behaviour (context_issue ctx d) (ctx_data ctx) chain).
Proof.
  intros Hm chain. unfold addIssueToContext.
  rewrite makeIssue_without_message by exact Hm.
  cbn [errorMaps issueData params_data params_path].
  rewrite present_map_Some, present_priority_chain. reflexivity.
Qed.

Lemma addIssueToContext_pushes (w : World) (ctx : ParseContext) (d : IssueData) :
  exists msg,
    fst (addIssueToContext behaviour defaultErrorMap w ctx d) =
    push (issues (common ctx))
      (issue_of d (ctx_path ctx ++ path_or_empty d) msg) w.
Proof.
  unfold addIssueToContext, makeIssue. simpl.
  destruct (message d) as [m|]; simpl; [now exists m|].
  destruct (fold_left _ _ _) as [msg calls]. now exists msg.
Qed.

(** X18. When the issue data has no message, the first map
    [addIssueToContext] has called is always the default map, with the
    context's data and an empty [defaultError], whatever override, schema and
    contextual maps are installed. *)
Theorem addIssueToContext_default_called_first (w : World) (ctx : ParseContext)
    (d : IssueData) :
  message d = None ->
  exists later,
    snd (addIssueToContext behaviour defaultErrorMap w ctx d) =
    {| inv_map := defaultErrorMap; inv_issue := context_issue ctx d;
       inv_ctx := {| data := ctx_data ctx; defaultError := "" |} |} :: later.
Proof.
  intros Hm. rewrite (addIssueToContext_without_message w ctx d Hm). simpl.
  destruct (global_maps_end w) as [before ->]. rewrite app_assoc.
  apply calls_of_lowest.
Qed.

(** X19. When the issue data has a message, [addIssueToContext] calls no map
    and pushes the issue with that message and the context's path followed by
    the issue's own: the installed maps play no part. *)
Theorem addIssueToContext_explicit_message (w : World) (ctx : ParseContext)
    (d : IssueData) (m : string) :
  message d = Some m ->
  addIssueToContext behaviour defaultErrorMap w ctx d =
  (push (issues (common ctx)) (issue_of d (ctx_path ctx ++ path_or_empty d) m) w,
   []).
Proof.
  intros Hm. unfold addIssueToContext, makeIssue. simpl. now rewrite Hm.
Qed.

(** X20. A contextual map has the last word: without a message in the issue
    data, the message pushed is what the contextual map answers when handed,
    as [defaultError], what the schema, override and default maps resolve to
    without it. *)
Theorem addIssueToContext_contextual_map_decides (w : World) (ctx : ParseContext)
    (d : IssueData) (contextual : ZodErrorMap) :
  message d = None ->
  contextualErrorMap (common ctx) = Some contextual ->
  arrays (fst (addIssueToContext behaviour defaultErrorMap w ctx d))
    (issues (common ctx)) =
  arrays w (issues (common ctx)) ++
  [issue_of d (ctx_path ctx ++ path_or_empty d)
     (behaviour contextual (context_issue ctx d)
        {| data := ctx_data ctx;
           defaultError :=
             resolve behaviour (context_issue ctx d) (ctx_data ctx)
               (present [schemaErrorMap ctx] ++ global_maps defaultErrorMap w) |})].
Proof.
  intros Hm Hc. rewrite (addIssueToContext_without_message w ctx d Hm).
  rewrite Hc. simpl. now rewrite Nat.eqb_refl.
Qed.

(** X21. The map installed with [setErrorMap] is consulted by the next
    [addIssueToContext]: in a context without contextual and schema map and
    for issue data without message, a map other than the default map is
    called after the default map, is handed the default map's answer, and
    gives the message; installing the default map again makes it the only
    map called.  [setErrorMap] itself leaves the issues untouched. *)
Theorem setErrorMap_changes_resolution (w : World) (ctx : ParseContext)
    (d : IssueData) (installed : ZodErrorMap) :
  message d = None ->
  contextualErrorMap (common ctx) = None ->
  schemaErrorMap ctx = None ->
  let fullIssue := context_issue ctx d in
  let by_default :=
    behaviour defaultErrorMap fullIssue
      {| data := ctx_data ctx; defaultError := "" |} in
  let after :=
    addIssueToContext behaviour defaultErrorMap (setErrorMap installed w) ctx d in
  arrays (setErrorMap installed w) = arrays w
  /\ (installed <> defaultErrorMap ->
      map inv_map (snd after) = [defaultErrorMap; installed]
      /\ arrays (fst after) (issues (common ctx)) =
         arrays w (issues (common ctx)) ++
         [issue_of d (ctx_path ctx ++ path_or_empty d)
            (behaviour installed fullIssue
               {| data := ctx_data ctx; defaultError := by_default |})])
  /\ (installed = defaultErrorMap ->
      map inv_map (snd after) = [defaultErrorMap]
      /\ arrays (fst after) (issues (common ctx)) =
         arrays w (issues (common ctx)) ++
         [issue_of d (ctx_path ctx ++ path_or_empty d) by_default]).
Proof.
  intros Hm Hc Hs fullIssue by_default after. subst after.
  rewrite (addIssueToContext_without_message _ ctx d Hm).
  rewrite Hc, Hs. unfold global_maps. simpl.
  split; [reflexivity|]. split.
  - intros Hne. apply Nat.eqb_neq in Hne. rewrite Hne. simpl.
    now rewrite Nat.eqb_refl.
  - intros ->. rewrite Nat.eqb_refl. simpl. now rewrite Nat.eqb_refl.
Qed.

(** X22. Issues raised one after the other through contexts that share one
    [common.issues] array accumulate there in the order of the calls, each
    with its own context's path followed by its own path; the issues already
    there stay in place, other arrays and the installed override map are not
    touched. *)
Theorem issues_accumulate_in_call_order (a : nat)
    (raised : list (ParseContext * IssueData)) :
  forall w,
    Forall (fun r => issues (common (fst r)) = a) raised ->
    exists added,
      arrays (raise_all behaviour defaultErrorMap w raised) a = arrays w a ++ added
      /\ map issue_path added =
         map (fun r => ctx_path (fst r) ++ path_or_empty (snd r)) raised
      /\ map issue_code added = map (fun r => code (snd r)) raised
      /\ (forall b, b <> a ->
            arrays (raise_all behaviour defaultErrorMap w raised) b = arrays w b)
      /\ getErrorMap (raise_all behaviour defaultErrorMap w raised) = getErrorMap w.
Proof.
  induction raised as [|[ctx d] rest IH]; intros w Hall.
  - exists []. simpl. rewrite app_nil_r. auto.
  - inversion Hall as [|? ? Ha Hrest]. simpl in Ha. subst.
    change (raise_all behaviour defaultErrorMap w ((ctx, d) :: rest))
      with (raise_all behaviour defaultErrorMap
              (fst (addIssueToContext behaviour defaultErrorMap w ctx d)) rest).
    destruct (addIssueToContext_pushes w ctx d) as [msg Hpush]. rewrite Hpush.
    destruct (IH (push (issues (common ctx))
                    (issue_of d (ctx_path ctx ++ path_or_empty d) msg) w) Hrest)
      as [added [Harr [Hpaths [Hcodes [Hothers Hmap]]]]].
    exists (issue_of d (ctx_path ctx ++ path_or_empty d) msg :: added).
    repeat split.
    + rewrite Harr. simpl. rewrite Nat.eqb_refl, <- app_assoc. reflexivity.
    + simpl. now rewrite Hpaths.
    + simpl. now rewrite Hcodes.
    + intros b Hb. rewrite (Hothers b Hb). simpl.
      apply Nat.eqb_neq in Hb. now rewrite Hb.
    + exact Hmap.
Qed.

End FurtherContextProperties.

Lemma addIssueToContext_default_called_first_witness :
  exists later,
    snd (addIssueToContext example_behaviour 3 (setErrorMap 1 (initial_world 3))
           (example_context None (Some 2) [PathString "name"])
           (example_issue_data None)) =
    {| inv_map := 3;
       inv_issue := context_issue (example_context None (Some 2) [PathString "name"])
                      (example_issue_data None);
       inv_ctx := {| data := JNumber 123; defaultError := "" |} |} :: later.
Proof.
  apply (addIssueToContext_default_called_first example_behaviour 3
           (setErrorMap 1 (initial_world 3))
           (example_context None (Some 2) [PathString "name"])
           (example_issue_data None)).
  reflexivity.
Defined.

Lemma addIssueToContext_explicit_message_witness :
  addIssueToContext example_behaviour 3 (initial_world 3)
    (example_context (Some 1) (Some 2) [PathString "name"])
    (example_issue_data (Some "custom")) =
  (push 0
     {| issue_code := "invalid_type";
        issue_payload := [("expected", JString "string"); ("received", JString "number")];
        issue_path := [PathString "name"; PathString "b"];
        issue_message := "custom" |}
     (initial_world 3),
   []).
Proof.
  exact (addIssueToContext_explicit_message example_behaviour 3 (initial_world 3)
           (example_context (Some 1) (Some 2) [PathString "name"])
           (example_issue_data (Some "custom")) "custom" eq_refl).
Defined.

Lemma addIssueToContext_contextual_map_decides_witness :
  arrays (fst (addIssueToContext example_behaviour 3 (initial_world 3)
                 (example_context (Some 2) None [PathString "name"])
                 (example_issue_data None))) 0 =
  [] ++
  [{| issue_code := "invalid_type";
      issue_payload := [("expected", JString "string"); ("received", JString "number")];
      issue_path := [PathString "name"; PathString "b"];
      issue_message := "Invalid input (schema)" |}].
Proof.
  exact (addIssueToContext_contextual_map_decides example_behaviour 3 (initial_world 3)
           (example_context (Some 2) None [PathString "name"])
           (example_issue_data None) 2 eq_refl eq_refl).
Defined.

Lemma setErrorMap_changes_resolution_witness :
  map inv_map
    (snd (addIssueToContext example_behaviour 3 (setErrorMap 2 (initial_world 3))
            (example_context None None []) (example_issue_data None)))
  = [3; 2]
  /\ arrays
       (fst (addIssueToContext example_behaviour 3 (setErrorMap 2 (initial_world 3))
               (example_context None None []) (example_issue_data None))) 0
     = [] ++
       [{| issue_code := "invalid_type";
           issue_payload := [("expected", JString "string"); ("received", JString "number")];
           issue_path := [PathString "b"];
           issue_message := "Invalid input (schema)" |}].
Proof.
  destruct (setErrorMap_changes_resolution example_behaviour 3 (initial_world 3)
              (example_context None None []) (example_issue_data None) 2
              eq_refl eq_refl eq_refl) as (_ & Hother & _).
  apply Hother. discriminate.
Defined.

Lemma issues_accumulate_in_call_order_witness :
  exists added,
    arrays
      (raise_all example_behaviour 3 (initial_world 3)
         [ (example_context None None [PathString "user"], example_issue_data None);
           (example_context (Some 1) None [PathString "user"; PathNumber 0],
            example_issue_data (Some "custom")) ]) 0
    = [] ++ added
    /\ map issue_path added =
       [ [PathString "user"; PathString "b"];
         [PathString "user"; PathNumber 0; PathString "b"] ].
Proof.
  destruct (issues_accumulate_in_call_order example_behaviour 3 0
              [ (example_context None None [PathString "user"], example_issue_data None);
                (example_context (Some 1) None [PathString "user"; PathNumber 0],
                 example_issue_data (Some "custom")) ]
              (initial_world 3))
    as [added (Harr & Hpaths & _)].
  - repeat constructor.
  - exists added. split; [exact Harr | exact Hpaths].
Defined.

(** ** Predicates *)

(** X23. Of a synchronous result exactly one of [isAborted], [isDirty] and
    [isValid] holds, namely the one of its status, and [isAsync] fails; of a
    promise [isAsync] holds and the three status predicates all fail. *)
Theorem status_predicates_partition (T : Type) (x : ParseReturnType T) :
  match x with
  | Sync r =>
      isAsync x = false
      /\ isAborted x = StatusTag_eqb (status r) Aborted
      /\ isDirty x = StatusTag_eqb (status r) Dirty
      /\ isValid x = StatusTag_eqb (status r) Valid
      /\ ((isAborted x = true /\ isDirty x = false /\ isValid x = false)
          \/ (isAborted x = false /\ isDirty x = true /\ isValid x = false)
          \/ (isAborted x = false /\ isDirty x = false /\ isValid x = true))
  | Async _ _ =>
      isAsync x = true
      /\ isAborted x = false /\ isDirty x = false /\ isValid x = false
  end.
Proof.
  destruct x as [[[] v]|pid s]; unfold isAborted, isDirty, isValid; simpl;
    repeat split; auto 10.
Qed.
